(** * The AST visitor of minidecaf ([src/Visitor.h])

    [Visitor] is a C++ class with one public virtual entry operation,
    [operator()], that switches on the run-time tag of a node and calls the
    virtual [visit] overload of the node's class, and twenty protected
    virtual [visit] overloads whose default bodies call the entry operation
    of [this] on the children of the node.

    The embedding keeps the following:
    - nodes live in a read-only heap and are reached through handles
      ([std::shared_ptr<ASTNode>]), which may be null and may alias;
    - a class is a table of methods taking [this]; a virtual call goes
      through the table of the dynamic class, so a subclass that overrides
      one method is seen by every inherited method;
    - a call either returns, throws a C++ exception, or has undefined
      behaviour (a null or dangling handle is dereferenced);
    - the recursion of the walk is bounded by a fuel counter (one unit per
      virtual call); running out of fuel is an outcome of its own, so that
      termination is a statement and not an artefact of the model. *)

From Stdlib Require Import ZArith Lia.
From stdpp Require Import base option list gmap strings.

(** ** Data model *)

(** The enumerators of [ASTNodeType] named by the switch of [operator()]. *)
Module ASTNodeType.

Inductive kind : Set :=
  | Program | Function | StmtSeq | Integer | Var | Assign | Invoke
  | IfThenElse | While | Call
  | Add | Sub | Mul | Div | LT | LE | GT | GE | EQ | NE.

(** A tag read from a node: one of the twenty enumerators, or any other
    value of the underlying integer type (the [default:] label of the switch
    exists for those). *)
Inductive t : Set :=
  | Of (k : kind)
  | Other (raw : Z).

#[global] Instance kind_eq_dec : EqDecision kind.
Proof. solve_decision. Defined.

#[global] Instance t_eq_dec : EqDecision t.
Proof. solve_decision. Defined.

End ASTNodeType.
Import ASTNodeType.

(** Addresses of heap objects, and handles: [None] is the null handle. *)
Definition loc := positive.
Definition ptr := option loc.

(** Modelled from the spec: [ASTNode.h] is not part of the sources.  The
    node classes are taken from section 3 of the specification, with the
    field names that [Visitor.h] reads ([funcs_], [body_], [stmts_], [var_],
    [expr_], [cond_], [thenCase_], [elseCase_], [lhs_], [rhs_]).  Fields the
    visitor never reads (names, literal values, call arguments) are left
    out.  [ForeignNode] is an object whose [nodeType()] is outside the
    twenty enumerators. *)
Inductive ASTNode : Set :=
  | ProgramNode (funcs_ : list ptr)
  | FunctionNode (body_ : ptr)
  | StmtSeqNode (stmts_ : list ptr)
  | IntegerNode
  | VarNode
  | AssignNode (var_ expr_ : ptr)
  | InvokeNode (expr_ : ptr)
  | IfThenElseNode (cond_ thenCase_ elseCase_ : ptr)
  | WhileNode (cond_ body_ : ptr)
  | CallNode
  | AddNode (lhs_ rhs_ : ptr)
  | SubNode (lhs_ rhs_ : ptr)
  | MulNode (lhs_ rhs_ : ptr)
  | DivNode (lhs_ rhs_ : ptr)
  | LTNode (lhs_ rhs_ : ptr)
  | LENode (lhs_ rhs_ : ptr)
  | GTNode (lhs_ rhs_ : ptr)
  | GENode (lhs_ rhs_ : ptr)
  | EQNode (lhs_ rhs_ : ptr)
  | NENode (lhs_ rhs_ : ptr)
  | ForeignNode (raw : Z).

#[global] Instance ASTNode_eq_dec : EqDecision ASTNode.
Proof. solve_decision. Defined.

(** Modelled from the spec: [ASTNode::nodeType()] is declared in the missing
    [ASTNode.h]; by section 3 the tag matches the concrete class. *)
Definition nodeType (nd : ASTNode) : ASTNodeType.t :=
  match nd with
  | ProgramNode _ => Of Program
  | FunctionNode _ => Of Function
  | StmtSeqNode _ => Of StmtSeq
  | IntegerNode => Of Integer
  | VarNode => Of Var
  | AssignNode _ _ => Of Assign
  | InvokeNode _ => Of Invoke
  | IfThenElseNode _ _ _ => Of IfThenElse
  | WhileNode _ _ => Of While
  | CallNode => Of Call
  | AddNode _ _ => Of Add
  | SubNode _ _ => Of Sub
  | MulNode _ _ => Of Mul
  | DivNode _ _ => Of Div
  | LTNode _ _ => Of LT
  | LENode _ _ => Of LE
  | GTNode _ _ => Of GT
  | GENode _ _ => Of GE
  | EQNode _ _ => Of EQ
  | NENode _ _ => Of NE
  | ForeignNode raw => Other raw
  end.

(** The operands of a node of one of the ten binary classes, read through a
    pointer of static type [name##Node]. *)
Definition binary_fields (name : kind) (nd : ASTNode) : option (ptr * ptr) :=
  match name, nd with
  | Add, AddNode lhs_ rhs_ => Some (lhs_, rhs_)
  | Sub, SubNode lhs_ rhs_ => Some (lhs_, rhs_)
  | Mul, MulNode lhs_ rhs_ => Some (lhs_, rhs_)
  | Div, DivNode lhs_ rhs_ => Some (lhs_, rhs_)
  | LT, LTNode lhs_ rhs_ => Some (lhs_, rhs_)
  | LE, LENode lhs_ rhs_ => Some (lhs_, rhs_)
  | GT, GTNode lhs_ rhs_ => Some (lhs_, rhs_)
  | GE, GENode lhs_ rhs_ => Some (lhs_, rhs_)
  | EQ, EQNode lhs_ rhs_ => Some (lhs_, rhs_)
  | NE, NENode lhs_ rhs_ => Some (lhs_, rhs_)
  | _, _ => None
  end.

(** ** Trees in the heap *)

(** The children of a node in the order section 3 of the specification
    declares them; the optional [elseCase_] is listed only when present. *)
Definition children (nd : ASTNode) : list ptr :=
  match nd with
  | ProgramNode funcs_ => funcs_
  | FunctionNode body_ => [body_]
  | StmtSeqNode stmts_ => stmts_
  | IntegerNode | VarNode | CallNode => []
  | AssignNode var_ expr_ => [var_; expr_]
  | InvokeNode expr_ => [expr_]
  | IfThenElseNode cond_ thenCase_ None => [cond_; thenCase_]
  | IfThenElseNode cond_ thenCase_ (Some e) => [cond_; thenCase_; Some e]
  | WhileNode cond_ body_ => [cond_; body_]
  | AddNode lhs_ rhs_ | SubNode lhs_ rhs_ | MulNode lhs_ rhs_
  | DivNode lhs_ rhs_ | LTNode lhs_ rhs_ | LENode lhs_ rhs_
  | GTNode lhs_ rhs_ | GENode lhs_ rhs_ | EQNode lhs_ rhs_
  | NENode lhs_ rhs_ => [lhs_; rhs_]
  | ForeignNode _ => []
  end.

(** The shape of the part of the heap reachable from a handle, as a finite
    tree of addresses with the kind found at each. *)
#[warnings="-register-all"]
Inductive tree : Set :=
  | Node (k : kind) (l : loc) (kids : list tree).

Arguments Node k l%_positive kids.

Definition root (t : tree) : loc :=
  match t with Node _ l _ => l end.

Definition kind_of (t : tree) : kind :=
  match t with Node k _ _ => k end.

Definition kids_of (t : tree) : list tree :=
  match t with Node _ _ kids => kids end.

(** The addresses of a tree, parent first, children left to right. *)
Fixpoint nodes (t : tree) : list loc :=
  match t with
  | Node _ l kids => l :: concat (map nodes kids)
  end.

Fixpoint height (t : tree) : nat :=
  match t with
  | Node _ _ kids => Datatypes.S (foldr Nat.max 0 (map height kids))
  end.

(** [shape h t]: the heap [h] holds the tree [t].  Every node carries a tag
    of the closed set and every child section 3 declares is present, except
    an absent [elseCase_]. *)
Fixpoint shape (h : gmap loc ASTNode) (t : tree) : bool :=
  match t with
  | Node k l kids =>
      match h !! l with
      | Some nd =>
          bool_decide (nodeType nd = Of k)
          && bool_decide (children nd = map (fun c => Some (root c)) kids)
          && forallb (shape h) kids
      | None => false
      end
  end.

(** [sub t' t]: [t'] is [t] or one of its subtrees. *)
Inductive sub (t' : tree) : tree -> Prop :=
  | sub_here : sub t' t'
  | sub_kid k l kids c : c ∈ kids -> sub t' c -> sub t' (Node k l kids).

(** The addresses strictly below the address [n] in [t]. *)
Fixpoint below (n : loc) (t : tree) : list loc :=
  match t with
  | Node _ l kids =>
      if decide (l = n) then concat (map nodes kids)
      else concat (map (below n) kids)
  end.

(** [ranked heap rank]: every handle stored in a node points to a node of
    smaller rank; such a heap has no cycle, but it may share nodes, hold
    null handles and hold tags outside the closed set. *)
Definition ranked (heap : gmap loc ASTNode) (rank : loc -> nat) : Prop :=
  forall l nd c,
    heap !! l = Some nd -> Some c ∈ children nd -> rank c < rank l.

(** [reach heap l l']: the node at [l'] is reached from [l] by following
    handles stored in nodes of the heap, in zero or more steps.  The last
    address need not hold a node. *)
Inductive reach (heap : gmap loc ASTNode) : loc -> loc -> Prop :=
  | reach_here l : reach heap l l
  | reach_step l nd c l' :
      heap !! l = Some nd -> Some c ∈ children nd -> reach heap c l' ->
      reach heap l l'.

(** The kinds that occur in a tree. *)
Fixpoint kinds (t : tree) : list kind :=
  match t with
  | Node k _ kids => k :: concat (map kinds kids)
  end.

(** ** Observations and outcomes *)

(** A virtual call of a [visit] overload is recorded when it begins and when
    it returns.  The record is ghost state: it is how "the handler of node N
    was invoked" is observed. *)
Inductive Event : Set :=
  | Enter (k : kind) (op : loc)
  | Leave (k : kind) (op : loc).

Arguments Enter k op%_positive.
Arguments Leave k op%_positive.

#[global] Instance Event_eq_dec : EqDecision Event.
Proof. solve_decision. Defined.

Inductive exn : Set :=
  | runtime_error (what : string).

(** The exception of the [default:] label of the switch, which the
    specification calls [UnknownKind]. *)
Definition UnknownKind : exn := runtime_error "Unrecognized ASTNodeType".

(** How a call ends: it returns, a C++ exception propagates out of it, the
    behaviour is undefined (null or dangling handle dereferenced, wrong
    static type), or the fuel of the model ran out. *)
Inductive Res (A : Type) : Type :=
  | Ret (a : A)
  | Throw (e : exn)
  | Undef
  | Starved.
Arguments Ret {A} a.
Arguments Throw {A} e.
Arguments Undef {A}.
Arguments Starved {A}.

Section Monad.

(** The state a pass owns (counters, symbol tables, output). *)
Context {S : Type}.

Record World : Type := mkWorld { trace : list Event; user : S }.

Definition M (A : Type) : Type := World -> Res A * World.

Definition ret {A} (a : A) : M A := fun w => (Ret a, w).

Definition bind {A B} (m : M A) (f : A -> M B) : M B :=
  fun w =>
    match m w with
    | (Ret a, w') => f a w'
    | (Throw e, w') => (Throw e, w')
    | (Undef, w') => (Undef, w')
    | (Starved, w') => (Starved, w')
    end.

Definition throw {A} (e : exn) : M A := fun w => (Throw e, w).
Definition undef {A} : M A := fun w => (Undef, w).
Definition starve {A} : M A := fun w => (Starved, w).

Definition emit (e : Event) : M unit :=
  fun w => (Ret tt, mkWorld (trace w ++ [e]) (user w)).

Definition work (f : S -> S) : M unit :=
  fun w => (Ret tt, mkWorld (trace w) (f (user w))).

(** A range-based [for] loop. *)
Fixpoint for_each {A} (xs : list A) (body : A -> M unit) : M unit :=
  match xs with
  | [] => ret tt
  | x :: xs' => bind (body x) (fun _ => for_each xs' body)
  end.

End Monad.

Arguments World S : clear implicits.
Arguments M S A : clear implicits.

Notation "x <- m ;; f" := (bind m (fun x => f))
  (at level 100, m at next level, right associativity).
Notation "m ;; f" := (bind m (fun _ => f))
  (at level 100, right associativity).

Section Walker.

(** The state of the pass, and the read-only heap that holds the nodes. *)
Context {S : Type}.
Variable heap : gmap loc ASTNode.

Local Abbreviation M := (M S).

(** [op->field] through a raw pointer. *)
Definition load (op : loc) : M ASTNode :=
  match heap !! op with
  | Some nd => ret nd
  | None => undef
  end.

(** [op->nodeType()] and [op.get()] through a handle: there is no test for
    the null handle before the dereference. *)
Definition deref (op : ptr) : M (loc * ASTNode) :=
  match op with
  | Some l => nd <- load l ;; ret (l, nd)
  | None => undef
  end.

(** ** Objects and classes *)

(** What a method body can do with [this]: call [this->operator()(op)]
    and call the [visit] overload of a kind; both calls are virtual. *)
Record Self : Type := mkSelf {
  self_call : ptr -> M unit;
  self_visit : kind -> loc -> M unit
}.

(** A class: the body of [operator()] and the bodies of the [visit]
    overloads, each taking [this]. *)
Record Class : Type := mkClass {
  call : Self -> ptr -> M unit;
  visit : kind -> Self -> loc -> M unit
}.

(** *** The base class [Visitor] *)

(** The macro [DISPATCH_CASE], lines 13-16: the virtual call of the [visit]
    overload for the class [name##Node] on [op.get()]. *)
Definition DISPATCH_CASE (name : kind) (this : Self) (op : loc) : M unit :=
  self_visit this name op.

(** [Visitor::operator()], lines 10-42.  [deref op] yields [op.get()] and
    the object it points to. *)
Definition Visitor_call (this : Self) (op : ptr) : M unit :=
  p <- deref op ;;
  match nodeType (snd p) with
  | Of Program => DISPATCH_CASE Program this (fst p)
  | Of Function => DISPATCH_CASE Function this (fst p)
  | Of StmtSeq => DISPATCH_CASE StmtSeq this (fst p)
  | Of Integer => DISPATCH_CASE Integer this (fst p)
  | Of Var => DISPATCH_CASE Var this (fst p)
  | Of Assign => DISPATCH_CASE Assign this (fst p)
  | Of Invoke => DISPATCH_CASE Invoke this (fst p)
  | Of IfThenElse => DISPATCH_CASE IfThenElse this (fst p)
  | Of While => DISPATCH_CASE While this (fst p)
  | Of Call => DISPATCH_CASE Call this (fst p)
  | Of Add => DISPATCH_CASE Add this (fst p)
  | Of Sub => DISPATCH_CASE Sub this (fst p)
  | Of Mul => DISPATCH_CASE Mul this (fst p)
  | Of Div => DISPATCH_CASE Div this (fst p)
  | Of LT => DISPATCH_CASE LT this (fst p)
  | Of LE => DISPATCH_CASE LE this (fst p)
  | Of GT => DISPATCH_CASE GT this (fst p)
  | Of GE => DISPATCH_CASE GE this (fst p)
  | Of EQ => DISPATCH_CASE EQ this (fst p)
  | Of NE => DISPATCH_CASE NE this (fst p)
  | Other _ => throw (runtime_error "Unrecognized ASTNodeType")
  end.

(** The macro [VISIT_BINARY_NODE], lines 91-95. *)
Definition VISIT_BINARY_NODE (name : kind) (this : Self) (op : loc) : M unit :=
  nd <- load op ;;
  match binary_fields name nd with
  | Some (lhs_, rhs_) => self_call this lhs_ ;; self_call this rhs_
  | None => undef
  end.

(** The default [visit] overloads, lines 45-105.  The overload is chosen by
    the static type of the argument, here the kind [k]. *)
Definition Visitor_visit (k : kind) (this : Self) (op : loc) : M unit :=
  match k with
  | Program =>
      nd <- load op ;;
      match nd with
      | ProgramNode funcs_ => for_each funcs_ (fun func => self_call this func)
      | _ => undef
      end
  | Function =>
      nd <- load op ;;
      match nd with
      | FunctionNode body_ => self_call this body_
      | _ => undef
      end
  | StmtSeq =>
      nd <- load op ;;
      match nd with
      | StmtSeqNode stmts_ => for_each stmts_ (fun stmt => self_call this stmt)
      | _ => undef
      end
  | Integer => ret tt
  | Var => ret tt
  | Assign =>
      nd <- load op ;;
      match nd with
      | AssignNode var_ expr_ => self_call this var_ ;; self_call this expr_
      | _ => undef
      end
  | IfThenElse =>
      nd <- load op ;;
      match nd with
      | IfThenElseNode cond_ thenCase_ elseCase_ =>
          self_call this cond_ ;;
          self_call this thenCase_ ;;
          match elseCase_ with
          | Some _ => self_call this elseCase_
          | None => ret tt
          end
      | _ => undef
      end
  | While =>
      nd <- load op ;;
      match nd with
      | WhileNode cond_ body_ => self_call this cond_ ;; self_call this body_
      | _ => undef
      end
  | Invoke =>
      nd <- load op ;;
      match nd with
      | InvokeNode expr_ => self_call this expr_
      | _ => undef
      end
  | Call => ret tt
  | Add => VISIT_BINARY_NODE Add this op
  | Sub => VISIT_BINARY_NODE Sub this op
  | Mul => VISIT_BINARY_NODE Mul this op
  | Div => VISIT_BINARY_NODE Div this op
  | LT => VISIT_BINARY_NODE LT this op
  | LE => VISIT_BINARY_NODE LE this op
  | GT => VISIT_BINARY_NODE GT this op
  | GE => VISIT_BINARY_NODE GE this op
  | EQ => VISIT_BINARY_NODE EQ this op
  | NE => VISIT_BINARY_NODE NE this op
  end.

Definition Visitor : Class := mkClass Visitor_call Visitor_visit.

(** *** Subclasses *)

(** A subclass that overrides the [visit] overload of one kind. *)
Definition override_visit (base : Class) (k : kind)
    (body : Self -> loc -> M unit) : Class :=
  mkClass (call base)
          (fun k' => if decide (k' = k) then body else visit base k').

(** A subclass that overrides [operator()]. *)
Definition override_call (base : Class) (body : Self -> ptr -> M unit) : Class :=
  mkClass body (visit base).

(** *** Running an object *)

(** An object of dynamic class [C] that can sustain [fuel] nested virtual
    calls.  Every virtual call of a [visit] overload is bracketed by its
    [Enter] and [Leave] records; [Leave] is only reached when the overload
    returns. *)
Fixpoint object (C : Class) (fuel : nat) : Self :=
  match fuel with
  | O => mkSelf (fun _ => starve) (fun _ _ => starve)
  | Datatypes.S n =>
      mkSelf
        (fun op => call C (object C n) op)
        (fun k op => emit (Enter k op) ;; visit C k (object C n) op ;; emit (Leave k op))
  end.

(** The entry operation applied by a caller to the handle [op]. *)
Definition walk (C : Class) (fuel : nat) (op : ptr) : M unit :=
  self_call (object C fuel) op.

(** *** Passes that follow the override discipline

    Section 4.1 of the specification describes how a pass overrides a
    handler: it does work of its own and either returns, which cuts the
    traversal below the node, or invokes the default handler, before or
    between its own work.  [Discipline] describes such a pass: its own work
    at the entry operation and around each handler, and where it descends. *)
Record Discipline : Type := mkDiscipline {
  on_call : ptr -> S -> S;
  before : kind -> loc -> S -> S;
  descend : kind -> loc -> bool;
  after : kind -> loc -> S -> S
}.

(** The overriding body of a [visit] overload: own work, then either
    [Visitor::visit(op)] and more own work, or nothing. *)
Definition visit_body (pre : loc -> S -> S) (go : loc -> bool)
    (post : loc -> S -> S) (k : kind) (this : Self) (op : loc) : M unit :=
  work (pre op) ;;
  if go op then Visitor_visit k this op ;; work (post op) else ret tt.

(** The overriding body of [operator()]: own work, then
    [Visitor::operator()(op)]. *)
Definition call_body (pre : ptr -> S -> S) (this : Self) (op : ptr) : M unit :=
  work (pre op) ;; Visitor_call this op.

(** [follows C d]: the methods of class [C] behave as the discipline [d]
    says. *)
Definition follows (C : Class) (d : Discipline) : Prop :=
  (forall this op w, call C this op w = call_body (on_call d) this op w)
  /\ (forall k this op w,
        visit C k this op w
        = visit_body (before d k) (descend d k) (after d k) k this op w).

(** The discipline of a class that overrides nothing. *)
Definition inherit : Discipline :=
  mkDiscipline (fun _ s => s) (fun _ _ s => s) (fun _ _ => true) (fun _ _ s => s).

(** The events of a walk of [t] by a pass of discipline [d]: pre-order,
    children left to right, nothing below a node where the pass cuts. *)
Fixpoint events (d : Discipline) (t : tree) : list Event :=
  match t with
  | Node k l kids =>
      Enter k l
      :: (if descend d k l then concat (map (events d) kids) else [])
      ++ [Leave k l]
  end.

(** The effect of that walk on the state of the pass. *)
Fixpoint effect (d : Discipline) (t : tree) (s : S) : S :=
  match t with
  | Node k l kids =>
      let s1 := before d k l (on_call d (Some l) s) in
      if descend d k l
      then after d k l (foldl (fun s' c => effect d c s') s1 kids)
      else s1
  end.

(** The addresses the walk does not reach: those strictly below a node
    where the pass cuts. *)
Fixpoint hidden (d : Discipline) (t : tree) : list loc :=
  match t with
  | Node k l kids =>
      if descend d k l then concat (map (hidden d) kids)
      else concat (map nodes kids)
  end.

(** The discipline of a subclass that overrides the handler of kind [K]
    only, with [visit_body pre go post K]. *)
Definition cutting (K : kind) (pre : loc -> S -> S) (go : loc -> bool)
    (post : loc -> S -> S) : Discipline :=
  mkDiscipline
    (fun _ s => s)
    (fun k l s => if decide (k = K) then pre l s else s)
    (fun k l => if decide (k = K) then go l else true)
    (fun k l s => if decide (k = K) then post l s else s).

(** The discipline of a subclass that overrides [operator()] only, doing
    [f] before it calls the inherited entry operation. *)
Definition on_entry (f : ptr -> S -> S) : Discipline :=
  mkDiscipline f (fun _ _ s => s) (fun _ _ => true) (fun _ _ s => s).

End Walker.

(** The events of a default walk: [Enter] of the node, the events of each
    child in turn, [Leave] of the node. *)
Fixpoint preorder (t : tree) : list Event :=
  match t with
  | Node k l kids => Enter k l :: concat (map preorder kids) ++ [Leave k l]
  end.

(** The addresses whose handler was invoked, in the order of invocation. *)
Definition entered (tr : list Event) : list loc :=
  omap (fun e => match e with Enter _ l => Some l | Leave _ _ => None end) tr.

Definition event_loc (e : Event) : loc :=
  match e with Enter _ l | Leave _ l => l end.

(** The events a trace holds for the node at [l]. *)
Definition events_at (l : loc) (tr : list Event) : list Event :=
  filter (fun e => event_loc e = l) tr.

(** How many times [l] occurs in a list of addresses. *)
Definition occurrences (l : loc) (ls : list loc) : nat :=
  length (filter (fun x => x = l) ls).

(** The own work of a pass that overrides the handler of kind [K], run along
    a trace: [pre] when a handler of kind [K] is entered, [post] when it
    returns. *)
Definition work_along {S : Type} (K : kind) (pre post : loc -> S -> S)
    (s : S) (e : Event) : S :=
  match e with
  | Enter k l => if decide (k = K) then pre l s else s
  | Leave k l => if decide (k = K) then post l s else s
  end.

(** ** Example heaps

    The trees of the scenarios of section 8 of the specification, laid out
    in a heap, and the heaps used to exhibit failures. *)
Module Examples.

(** [Program[Function(StmtSeq[Assign(Var, Add(Var, Integer))])]]. *)
Definition heap_S1 : gmap loc ASTNode :=
  list_to_map
    [(1%positive, ProgramNode [Some 2%positive]);
     (2%positive, FunctionNode (Some 3%positive));
     (3%positive, StmtSeqNode [Some 4%positive]);
     (4%positive, AssignNode (Some 5%positive) (Some 6%positive));
     (5%positive, VarNode);
     (6%positive, AddNode (Some 7%positive) (Some 8%positive));
     (7%positive, VarNode);
     (8%positive, IntegerNode)].

Definition tree_S1 : tree :=
  Node Program 1 [Node Function 2 [Node StmtSeq 3 [Node Assign 4
    [Node Var 5 []; Node Add 6 [Node Var 7 []; Node Integer 8 []]]]]].

(** [While(LT(Var, Integer), StmtSeq[Assign(Var, Add(Var, Integer))])]. *)
Definition heap_S2 : gmap loc ASTNode :=
  list_to_map
    [(1%positive, WhileNode (Some 2%positive) (Some 5%positive));
     (2%positive, LTNode (Some 3%positive) (Some 4%positive));
     (3%positive, VarNode);
     (4%positive, IntegerNode);
     (5%positive, StmtSeqNode [Some 6%positive]);
     (6%positive, AssignNode (Some 7%positive) (Some 8%positive));
     (7%positive, VarNode);
     (8%positive, AddNode (Some 9%positive) (Some 10%positive));
     (9%positive, VarNode);
     (10%positive, IntegerNode)].

Definition tree_S2 : tree :=
  Node While 1
    [Node LT 2 [Node Var 3 []; Node Integer 4 []];
     Node StmtSeq 5 [Node Assign 6
       [Node Var 7 []; Node Add 8 [Node Var 9 []; Node Integer 10 []]]]].

(** [IfThenElse(EQ(Var, Integer), Assign(Var, Integer), absent)]. *)
Definition heap_S4 : gmap loc ASTNode :=
  list_to_map
    [(1%positive, IfThenElseNode (Some 2%positive) (Some 5%positive) None);
     (2%positive, EQNode (Some 3%positive) (Some 4%positive));
     (3%positive, VarNode);
     (4%positive, IntegerNode);
     (5%positive, AssignNode (Some 6%positive) (Some 7%positive));
     (6%positive, VarNode);
     (7%positive, IntegerNode)].

Definition tree_S4 : tree :=
  Node IfThenElse 1
    [Node EQ 2 [Node Var 3 []; Node Integer 4 []];
     Node Assign 5 [Node Var 6 []; Node Integer 7 []]].

(** [Add(Mul(Integer, Integer), Integer)]. *)
Definition heap_S5 : gmap loc ASTNode :=
  list_to_map
    [(1%positive, AddNode (Some 2%positive) (Some 5%positive));
     (2%positive, MulNode (Some 3%positive) (Some 4%positive));
     (3%positive, IntegerNode);
     (4%positive, IntegerNode);
     (5%positive, IntegerNode)].

Definition tree_S5 : tree :=
  Node Add 1 [Node Mul 2 [Node Integer 3 []; Node Integer 4 []];
              Node Integer 5 []].

(** A node whose tag is outside the closed set. *)
Definition heap_S6 : gmap loc ASTNode :=
  list_to_map [(1%positive, ForeignNode 99%Z)].

(** A block of two loops: [StmtSeq[While(Var, StmtSeq[]), While(Var,
    StmtSeq[])]]. *)
Definition heap_loops : gmap loc ASTNode :=
  list_to_map
    [(1%positive, StmtSeqNode [Some 2%positive; Some 5%positive]);
     (2%positive, WhileNode (Some 3%positive) (Some 4%positive));
     (3%positive, VarNode);
     (4%positive, StmtSeqNode []);
     (5%positive, WhileNode (Some 6%positive) (Some 7%positive));
     (6%positive, VarNode);
     (7%positive, StmtSeqNode [])].

Definition tree_loops : tree :=
  Node StmtSeq 1
    [Node While 2 [Node Var 3 []; Node StmtSeq 4 []];
     Node While 5 [Node Var 6 []; Node StmtSeq 7 []]].

(** A function whose body is the null handle. *)
Definition heap_no_body : gmap loc ASTNode :=
  list_to_map [(1%positive, FunctionNode None)].

(** An assignment whose right-hand side is the null handle. *)
Definition heap_no_expr : gmap loc ASTNode :=
  list_to_map
    [(1%positive, AssignNode (Some 2%positive) None);
     (2%positive, VarNode)].

(** A block whose second statement carries a tag outside the closed set. *)
Definition heap_foreign_inside : gmap loc ASTNode :=
  list_to_map
    [(1%positive, StmtSeqNode [Some 2%positive; Some 3%positive; Some 4%positive]);
     (2%positive, InvokeNode (Some 5%positive));
     (3%positive, ForeignNode 99%Z);
     (4%positive, InvokeNode (Some 5%positive));
     (5%positive, CallNode)].

(** An addition whose two operands are the same node: the handles alias and
    the heap is not a tree. *)
Definition heap_shared : gmap loc ASTNode :=
  list_to_map
    [(1%positive, AddNode (Some 2%positive) (Some 2%positive));
     (2%positive, VarNode)].

Definition dag_shared : tree :=
  Node Add 1 [Node Var 2 []; Node Var 2 []].

(** A function whose body is the function itself: the heap is not a tree. *)
Definition heap_cycle : gmap loc ASTNode :=
  list_to_map [(1%positive, FunctionNode (Some 1%positive))].

End Examples.

(** ** Auxiliary facts *)

(** Induction on trees, with the hypothesis for every child. *)
Lemma tree_induction (P : tree -> Prop) :
  (forall k l kids, Forall P kids -> P (Node k l kids)) ->
  forall t, P t.
Proof.
  intros step. fix IH 1. intros [k l kids]. apply step.
  induction kids as [|c kids IHkids]; constructor; [apply IH | exact IHkids].
Qed.

Lemma shape_Node h k l kids :
  shape h (Node k l kids) = true <->
  exists nd, h !! l = Some nd /\ nodeType nd = Of k
             /\ children nd = map (fun c => Some (root c)) kids
             /\ Forall (fun c => shape h c = true) kids.
Proof.
  simpl. destruct (h !! l) as [nd|]; split.
  - intros H. apply andb_prop in H as [H Hkids]. apply andb_prop in H as [Hk Hc].
    exists nd. repeat split.
    + by apply bool_decide_eq_true in Hk.
    + by apply bool_decide_eq_true in Hc.
    + apply Forall_forall. intros c Hin. rewrite forallb_forall in Hkids.
      apply Hkids. by apply list_elem_of_In.
  - intros (nd' & [= <-] & Hk & Hc & Hkids).
    rewrite !andb_true_iff, !bool_decide_eq_true. repeat split; trivial.
    apply forallb_forall. intros c Hin. rewrite Forall_forall in Hkids.
    apply Hkids. by apply list_elem_of_In.
  - discriminate.
  - intros (nd & [=] & _).
Qed.

Lemma height_kid k l kids c :
  c ∈ kids -> height c < height (Node k l kids).
Proof.
  simpl. induction kids as [|c' kids IH]; intros Hin.
  - by apply elem_of_nil in Hin.
  - apply elem_of_cons in Hin as [->|Hin]; simpl; [lia|].
    specialize (IH Hin). lia.
Qed.

Section Facts.

Context {S : Type}.
Variable heap : gmap loc ASTNode.

Implicit Types (w : World S) (this : @Self S) (C : @Class S).

Lemma bind_ret_tt (m : M S unit) w : (m ;; ret tt) w = m w.
Proof.
  unfold bind, ret. destruct (m w) as [[[]| | |] w']; reflexivity.
Qed.

(** The switch of [operator()] at a node of the closed set is the virtual
    call of the overload of the node's kind. *)
Lemma Visitor_call_known this l nd k w :
  heap !! l = Some nd -> nodeType nd = Of k ->
  Visitor_call heap this (Some l) w = self_visit this k l w.
Proof.
  intros Hl Hk. unfold Visitor_call, deref, load, bind, ret. rewrite Hl. simpl.
  rewrite Hk. destruct k; reflexivity.
Qed.

(** The default overload of a node's kind calls the entry operation on the
    children of the node, in the declared order. *)
Lemma Visitor_visit_children this l nd k w :
  heap !! l = Some nd -> nodeType nd = Of k ->
  Visitor_visit heap k this l w = for_each (children nd) (self_call this) w.
Proof.
  intros Hl Hk.
  destruct nd; simpl in Hk; inversion Hk; subst k; clear Hk;
    unfold Visitor_visit, VISIT_BINARY_NODE, load;
    try (unfold bind at 1; rewrite Hl; unfold ret at 1; simpl);
    try reflexivity;
    try (destruct elseCase_ as [e|]);
    simpl; unfold bind, ret;
    repeat match goal with
           | |- context [match ?m ?w with _ => _ end] =>
               destruct (m w) as [[[]| | |] ?]
           end; reflexivity.
Qed.

Lemma self_call_S C n op :
  self_call (object C (Datatypes.S n)) op = call C (object C n) op.
Proof. reflexivity. Qed.

Lemma self_visit_S C n k l :
  self_visit (object C (Datatypes.S n)) k l
  = (emit (Enter k l) ;; visit C k (object C n) l ;; emit (Leave k l)).
Proof. reflexivity. Qed.

(** Walking the children of a node, when the walk of each child is known. *)
Lemma for_each_kids C d fuel kids :
  Forall (fun c => forall w,
            walk C fuel (Some (root c)) w
            = (Ret tt, mkWorld (trace w ++ events d c) (effect d c (user w))))
         kids ->
  forall w,
    for_each (map (fun c => Some (root c)) kids) (self_call (object C fuel)) w
    = (Ret tt, mkWorld (trace w ++ concat (map (events d) kids))
                       (foldl (fun s' c => effect d c s') (user w) kids)).
Proof.
  induction 1 as [|c kids Hc _ IH]; intros w.
  - simpl. unfold ret. destruct w; simpl. by rewrite app_nil_r.
  - simpl. unfold bind. fold (walk C fuel (Some (root c))).
    rewrite Hc, IH. simpl. by rewrite app_assoc.
Qed.

(** The walk of a tree by a pass that follows a discipline: it returns, and
    its events and its effect are those the discipline prescribes.  Two
    units of fuel per level suffice. *)
Lemma walk_follows C d :
  follows heap C d ->
  forall t, shape heap t = true ->
  forall fuel, 2 * height t <= fuel ->
  forall w,
    walk C fuel (Some (root t)) w
    = (Ret tt, mkWorld (trace w ++ events d t) (effect d t (user w))).
Proof.
  intros [Hcall Hvisit] t.
  induction t as [k l kids IH] using tree_induction.
  intros Hshape fuel Hfuel w.
  apply shape_Node in Hshape as (nd & Hl & Hk & Hch & Hkids).
  destruct fuel as [|[|fuel]]; [simpl in Hfuel; lia..|].
  assert (Hrec : Forall (fun c => forall w',
            walk C fuel (Some (root c)) w'
            = (Ret tt, mkWorld (trace w' ++ events d c) (effect d c (user w'))))
            kids).
  { apply Forall_forall. intros c Hin w'.
    rewrite Forall_forall in IH, Hkids.
    apply IH; auto.
    pose proof (height_kid k l kids c Hin). lia. }
  change (root (Node k l kids)) with l.
  unfold walk. rewrite self_call_S, Hcall.
  unfold call_body, bind at 1, work at 1.
  rewrite (Visitor_call_known _ _ nd k) by assumption.
  rewrite self_visit_S. unfold bind at 1, emit at 1. unfold bind at 1.
  rewrite Hvisit. unfold visit_body, bind at 1, work at 1.
  simpl events. simpl effect. cbn [trace user].
  destruct (descend d k l).
  - unfold bind at 1.
    rewrite (Visitor_visit_children _ _ nd k) by assumption.
    rewrite Hch, (for_each_kids C d fuel kids Hrec).
    unfold work, emit. cbn [trace user].
    f_equal. f_equal. rewrite <- !app_assoc. reflexivity.
  - unfold ret, emit. cbn [trace user].
    f_equal. f_equal. rewrite <- !app_assoc. reflexivity.
Qed.

(** A class that overrides nothing follows the discipline [inherit]. *)
Lemma follows_Visitor : follows heap (Visitor heap) (@inherit S).
Proof.
  split.
  - intros this op [tr u]. reflexivity.
  - intros k this op [tr u]. unfold visit_body, bind, work, ret. simpl.
    destruct (Visitor_visit heap k this op _) as [[[]| | |] [tr' u']];
      reflexivity.
Qed.

Lemma events_inherit t : events (@inherit S) t = preorder t.
Proof.
  induction t as [k l kids IH] using tree_induction. simpl.
  by rewrite (map_ext_Forall _ _ IH).
Qed.

Lemma effect_inherit t (s : S) : effect inherit t s = s.
Proof.
  revert s. induction t as [k l kids IH] using tree_induction. intros s. simpl.
  induction IH as [|c kids Hc _ IHkids]; simpl; [reflexivity|].
  by rewrite Hc.
Qed.

(** The default walk of a tree returns after the events of its pre-order
    traversal, and leaves the state of the pass alone. *)
Lemma default_walk t :
  shape heap t = true ->
  forall fuel, 2 * height t <= fuel ->
  forall w,
    walk (Visitor heap) fuel (Some (root t)) w
    = (Ret tt, mkWorld (trace w ++ preorder t) (user w)).
Proof.
  intros Hshape fuel Hfuel w.
  rewrite (walk_follows _ inherit follows_Visitor t Hshape fuel Hfuel).
  by rewrite events_inherit, effect_inherit.
Qed.

End Facts.

(** *** Traces and trees *)

Lemma entered_app tr1 tr2 : entered (tr1 ++ tr2) = entered tr1 ++ entered tr2.
Proof. apply omap_app. Qed.

Lemma entered_concat (trs : list (list Event)) :
  entered (concat trs) = concat (map entered trs).
Proof.
  induction trs as [|tr trs IH]; simpl; [reflexivity|].
  by rewrite entered_app, IH.
Qed.

(** Handlers are entered in the order of [nodes]. *)
Lemma entered_preorder t : entered (preorder t) = nodes t.
Proof.
  induction t as [k l kids IH] using tree_induction.
  simpl preorder. change (entered (Enter k l :: ?tr)) with (l :: entered tr).
  rewrite entered_app, entered_concat, map_map. simpl. rewrite app_nil_r.
  by rewrite (map_ext_Forall _ _ IH).
Qed.

Lemma occurrences_NoDup (l : loc) ls :
  NoDup ls -> l ∈ ls -> occurrences l ls = 1.
Proof.
  unfold occurrences. induction 1 as [|x ls Hx Hnd IH]; intros Hin.
  - by apply elem_of_nil in Hin.
  - rewrite filter_cons. destruct (decide (x = l)) as [->|Hne].
    + simpl. f_equal. clear IH Hin Hnd.
      induction ls as [|y ls IH]; [reflexivity|].
      rewrite filter_cons. apply not_elem_of_cons in Hx as [Hy Hx].
      destruct (decide (y = l)); [congruence|auto].
    + apply elem_of_cons in Hin as [->|Hin]; [done|auto].
Qed.

Lemma shape_sub h t' t : sub t' t -> shape h t = true -> shape h t' = true.
Proof.
  induction 1 as [|k l kids c Hin _ IH]; [done|].
  intros (nd & _ & _ & _ & Hkids)%shape_Node. apply IH.
  rewrite Forall_forall in Hkids. auto.
Qed.

Lemma sub_trans t1 t2 t3 : sub t1 t2 -> sub t2 t3 -> sub t1 t3.
Proof.
  intros H12 H23. induction H23 as [|k l kids c Hin _ IH]; [done|].
  eapply sub_kid; eauto.
Qed.

Lemma sub_trans_kid t k l kids c :
  sub (Node k l kids) t -> c ∈ kids -> sub c t.
Proof.
  intros Hsub Hin. eapply sub_trans; [|exact Hsub].
  eapply sub_kid; [exact Hin|constructor].
Qed.

Lemma height_sub t' t : sub t' t -> height t' <= height t.
Proof.
  induction 1 as [|k l kids c Hin _ IH]; [done|].
  pose proof (height_kid k l kids c Hin). lia.
Qed.

(** The events of a subtree are a contiguous segment of the events of the
    tree. *)
Lemma preorder_sub t' t :
  sub t' t -> exists pre post, preorder t = pre ++ preorder t' ++ post.
Proof.
  induction 1 as [|k l kids c Hin _ (pre & post & IH)].
  - exists [], []. by rewrite app_nil_r.
  - apply list_elem_of_split in Hin as (k1 & k2 & ->).
    exists (Enter k l :: concat (map preorder k1) ++ pre),
           (post ++ concat (map preorder k2) ++ [Leave k l]).
    simpl. rewrite map_app, concat_app. simpl. rewrite IH.
    by rewrite <- !app_assoc.
Qed.

(** Every address of a tree in the heap holds a node of the kind the tree
    records for it. *)
Lemma shape_nodes h t n :
  shape h t = true -> n ∈ nodes t ->
  exists t', sub t' t /\ root t' = n.
Proof.
  induction t as [k l kids IH] using tree_induction. intros Hshape Hin.
  simpl in Hin. apply elem_of_cons in Hin as [->|Hin].
  - exists (Node k l kids). split; [constructor|reflexivity].
  - apply shape_Node in Hshape as (nd & _ & _ & _ & Hkids).
    apply list_elem_of_In, in_concat in Hin as (ls & Hls & Hn).
    apply in_map_iff in Hls as (c & <- & Hc).
    apply list_elem_of_In in Hc, Hn.
    rewrite Forall_forall in IH, Hkids.
    destruct (IH c Hc (Hkids c Hc) Hn) as (t' & Hsub & Hroot).
    exists t'. split; [by eapply sub_kid|done].
Qed.

Lemma sub_heap h t k l kids :
  shape h t = true -> sub (Node k l kids) t ->
  exists nd, h !! l = Some nd /\ nodeType nd = Of k
             /\ children nd = map (fun c => Some (root c)) kids.
Proof.
  intros Hshape Hsub. pose proof (shape_sub h _ _ Hsub Hshape) as Hs.
  apply shape_Node in Hs as (nd & Hl & Hk & Hch & _). eauto.
Qed.

(** An [Enter] event of the pre-order trace names a node of the tree, with
    the kind the tree records. *)
Lemma Enter_preorder t k n :
  Enter k n ∈ preorder t -> exists kids, sub (Node k n kids) t.
Proof.
  induction t as [k0 l kids IH] using tree_induction. simpl. intros Hin.
  apply elem_of_cons in Hin as [[= -> ->]|Hin].
  { exists kids. constructor. }
  apply elem_of_app in Hin as [Hin|Hin].
  - apply list_elem_of_In, in_concat in Hin as (tr & Htr & He).
    apply in_map_iff in Htr as (c & <- & Hc).
    apply list_elem_of_In in Hc, He. rewrite Forall_forall in IH.
    destruct (IH c Hc He) as (kids' & Hsub).
    exists kids'. by eapply sub_kid.
  - apply list_elem_of_singleton in Hin. discriminate.
Qed.

Lemma preorder_Enter t k l kids :
  sub (Node k l kids) t -> Enter k l ∈ preorder t.
Proof.
  intros (pre & post & ->)%preorder_sub. simpl.
  apply elem_of_app. right. apply elem_of_cons. by left.
Qed.

(** Every event of the pre-order trace of a tree is about one of its nodes. *)
Lemma preorder_event_loc t e : e ∈ preorder t -> event_loc e ∈ nodes t.
Proof.
  induction t as [k l kids IH] using tree_induction. simpl. intros Hin.
  apply elem_of_cons in Hin as [->|Hin]; [by left|].
  apply elem_of_app in Hin as [Hin|Hin].
  - right. apply list_elem_of_In, in_concat in Hin as (tr & Htr & He).
    apply in_map_iff in Htr as (c & <- & Hc).
    apply list_elem_of_In in Hc, He. rewrite Forall_forall in IH.
    apply list_elem_of_In, in_concat. exists (nodes c). split.
    + apply in_map. by apply list_elem_of_In.
    + apply list_elem_of_In. auto.
  - apply list_elem_of_singleton in Hin as ->. by left.
Qed.

Lemma for_each_app {S A : Type} (xs ys : list A) (body : A -> M S unit) w :
  for_each (xs ++ ys) body w = (for_each xs body ;; for_each ys body) w.
Proof.
  revert w. induction xs as [|x xs IH]; intros w; simpl.
  - reflexivity.
  - unfold bind. destruct (body x w) as [[[]| | |] w1]; try reflexivity.
    rewrite IH. reflexivity.
Qed.

(** The default walk of a list of children that are trees. *)
Lemma for_each_kids_default {S : Type} heap fuel kids (w : World S) :
  Forall (fun c => shape heap c = true /\ 2 * height c <= fuel) kids ->
  for_each (map (fun c => Some (root c)) kids)
           (self_call (object (Visitor heap) fuel)) w
  = (Ret tt, mkWorld (trace w ++ concat (map preorder kids)) (user w)).
Proof.
  intros Hkids. revert w.
  induction Hkids as [|c kids [Hc Hfuel] _ IH]; intros w; simpl.
  - unfold ret. destruct w. simpl. by rewrite app_nil_r.
  - unfold bind. fold (@walk S (Visitor heap) fuel (Some (root c))).
    rewrite (default_walk heap c Hc fuel Hfuel), IH. simpl.
    by rewrite app_assoc.
Qed.

Lemma for_each_ext {S A : Type} (xs : list A) (body body' : A -> M S unit) w :
  (forall x w', body x w' = body' x w') ->
  for_each xs body w = for_each xs body' w.
Proof.
  intros H. revert w. induction xs as [|x xs IH]; intros w; simpl; [done|].
  unfold bind. rewrite H.
  destruct (body' x w) as [[[]| | |] w1]; try reflexivity. apply IH.
Qed.

(** The events of a pass that descends everywhere are those of the default
    walk. *)
Lemma events_descend {S : Type} (d : @Discipline S) t :
  (forall k l, descend d k l = true) -> events d t = preorder t.
Proof.
  intros Hd. induction t as [k l kids IH] using tree_induction. simpl.
  by rewrite Hd, (map_ext_Forall _ _ IH).
Qed.

Lemma follows_override_call {S : Type} heap (f : ptr -> S -> S) :
  follows heap (override_call (Visitor heap) (call_body heap f)) (on_entry f).
Proof.
  split.
  - reflexivity.
  - intros k this op [tr u]. unfold visit_body, bind, work, ret. simpl.
    destruct (Visitor_visit heap k this op _) as [[[]| | |] [tr' u']];
      reflexivity.
Qed.

Lemma effect_on_entry {S : Type} (f : ptr -> S -> S) t s :
  effect (on_entry f) t s = foldl (fun s' n => f (Some n) s') s (nodes t).
Proof.
  revert s. induction t as [k l kids IH] using tree_induction. intros s.
  simpl. generalize (f (Some l) s). clear s.
  induction IH as [|c kids Hc _ IHkids]; intros s; simpl; [reflexivity|].
  by rewrite foldl_app, Hc, IHkids.
Qed.

(** *** Cutting the traversal *)

Lemma elem_of_concat_map {A B : Type} (f : A -> list B) (xs : list A) (y : B) :
  y ∈ concat (map f xs) <-> exists x, x ∈ xs /\ y ∈ f x.
Proof.
  rewrite list_elem_of_In, in_concat. split.
  - intros (l & Hl & Hy). apply in_map_iff in Hl as (x & <- & Hx).
    exists x. by rewrite !list_elem_of_In.
  - intros (x & Hx & Hy). exists (f x). rewrite <- !list_elem_of_In.
    split; [|done]. apply list_elem_of_In, in_map. by apply list_elem_of_In.
Qed.

Lemma events_at_app n tr1 tr2 :
  events_at n (tr1 ++ tr2) = events_at n tr1 ++ events_at n tr2.
Proof. apply filter_app. Qed.

Lemma events_at_nil n tr :
  (forall e, e ∈ tr -> event_loc e <> n) -> events_at n tr = [].
Proof.
  unfold events_at. induction tr as [|e tr IH]; intros H; [reflexivity|].
  rewrite filter_cons. destruct (decide (event_loc e = n)) as [He|He].
  - destruct (H e); [by left|done].
  - apply IH. intros e' He'. apply H. by right.
Qed.

Lemma events_at_concat_map {A : Type} (f g : A -> list Event) n xs :
  (forall x, x ∈ xs -> events_at n (f x) = events_at n (g x)) ->
  events_at n (concat (map f xs)) = events_at n (concat (map g xs)).
Proof.
  induction xs as [|x xs IH]; intros H; simpl; [reflexivity|].
  rewrite !events_at_app, H by (by left). f_equal. apply IH.
  intros x' Hx'. apply H. by right.
Qed.

(** Trees at two places of a list without repeated addresses share no
    address. *)
Lemma NoDup_kids_eq kids c c' x :
  NoDup (concat (map nodes kids)) ->
  c ∈ kids -> c' ∈ kids -> x ∈ nodes c -> x ∈ nodes c' -> c = c'.
Proof.
  induction kids as [|a kids IH]; intros Hnd Hc Hc' Hx Hx'.
  - by apply elem_of_nil in Hc.
  - simpl in Hnd. apply NoDup_app in Hnd as (_ & Hdisj & Hnd).
    apply elem_of_cons in Hc as [->|Hc], Hc' as [->|Hc']; trivial.
    + destruct (Hdisj x Hx). apply elem_of_concat_map. eauto.
    + destruct (Hdisj x Hx'). apply elem_of_concat_map. eauto.
    + by apply IH.
Qed.

Lemma NoDup_kid k l kids c :
  NoDup (nodes (Node k l kids)) -> c ∈ kids -> NoDup (nodes c).
Proof.
  simpl. intros [_ Hnd]%NoDup_cons Hc.
  apply list_elem_of_split in Hc as (k1 & k2 & ->).
  rewrite map_app, concat_app in Hnd. simpl in Hnd.
  apply NoDup_app in Hnd as (_ & _ & Hnd).
  by apply NoDup_app in Hnd as (Hnd & _ & _).
Qed.

Lemma sub_nodes t' t n : sub t' t -> n ∈ nodes t' -> n ∈ nodes t.
Proof.
  induction 1 as [|k l kids c Hc _ IH]; [done|]. intros Hn.
  simpl. right. apply elem_of_concat_map. eauto.
Qed.

Lemma below_nodes n m t : n ∈ below m t -> n ∈ nodes t /\ m ∈ nodes t.
Proof.
  induction t as [k l kids IH] using tree_induction. simpl.
  rewrite Forall_forall in IH.
  destruct (decide (l = m)) as [->|Hne]; intros Hn.
  - split; [by right|by left].
  - apply elem_of_concat_map in Hn as (c & Hc & Hn).
    destruct (IH c Hc Hn) as [H1 H2].
    split; right; apply elem_of_concat_map; eauto.
Qed.

Section Cut.

Context {S : Type} (d : @Discipline S).

Lemma events_loc t e : e ∈ events d t -> event_loc e ∈ nodes t.
Proof.
  induction t as [k l kids IH] using tree_induction. simpl. intros Hin.
  rewrite Forall_forall in IH.
  apply elem_of_cons in Hin as [->|Hin]; [by left|].
  apply elem_of_app in Hin as [Hin|Hin].
  - destruct (descend d k l); [|by apply elem_of_nil in Hin].
    apply elem_of_concat_map in Hin as (c & Hc & He).
    right. apply elem_of_concat_map. eauto.
  - apply list_elem_of_singleton in Hin as ->. by left.
Qed.

(** Hidden addresses lie strictly below the root. *)
Lemma hidden_kids k l kids n :
  n ∈ hidden d (Node k l kids) -> n ∈ concat (map nodes kids).
Proof.
  change kids with (kids_of (Node k l kids)) at 2.
  generalize (Node k l kids). clear k l kids. intros t.
  induction t as [k l kids IH] using tree_induction. simpl.
  rewrite Forall_forall in IH.
  destruct (descend d k l); [|done].
  intros (c & Hc & Hn)%elem_of_concat_map. apply elem_of_concat_map.
  exists c. split; [done|]. specialize (IH c Hc Hn).
  destruct c as [kc lc kidsc]. simpl. by right.
Qed.

Lemma hidden_nodes t n : n ∈ hidden d t -> n ∈ nodes t.
Proof.
  destruct t as [k l kids]. intros H%hidden_kids. simpl. by right.
Qed.

(** No event of the walk is about a hidden address. *)
Lemma events_not_hidden t e :
  NoDup (nodes t) -> e ∈ events d t -> event_loc e ∉ hidden d t.
Proof.
  induction t as [k l kids IH] using tree_induction. intros Hnd He Hhid.
  rewrite Forall_forall in IH.
  pose proof (hidden_kids _ _ _ _ Hhid) as Hbelow.
  pose proof Hnd as [Hl Hnd']%NoDup_cons.
  simpl in He. apply elem_of_cons in He as [->|He]; [done|].
  apply elem_of_app in He as [He|He];
    [|apply list_elem_of_singleton in He as ->; done].
  simpl in Hhid. destruct (descend d k l); [|by apply elem_of_nil in He].
  apply elem_of_concat_map in He as (c & Hc & He).
  apply elem_of_concat_map in Hhid as (c' & Hc' & Hhid).
  assert (c = c') as <-.
  { eapply (NoDup_kids_eq kids); eauto using events_loc, hidden_nodes. }
  eapply IH; eauto using NoDup_kid.
Qed.

(** At an address that is not hidden the events are those of the default
    walk. *)
Lemma events_at_not_hidden t n :
  n ∉ hidden d t -> events_at n (events d t) = events_at n (preorder t).
Proof.
  induction t as [k l kids IH] using tree_induction. intros Hhid.
  rewrite Forall_forall in IH. simpl in Hhid. simpl.
  change (?e :: ?tr ++ ?tr') with ([e] ++ tr ++ tr').
  rewrite !events_at_app. f_equal. f_equal.
  destruct (descend d k l).
  - apply events_at_concat_map. intros c Hc. apply IH; [done|].
    intros Hn. apply Hhid. apply elem_of_concat_map. eauto.
  - symmetry. apply events_at_nil. intros e He <-. apply Hhid.
    apply elem_of_concat_map in He as (c & Hc & He).
    apply elem_of_concat_map. eauto using preorder_event_loc.
Qed.

(** A hidden address lies below a node where the pass cuts. *)
Lemma hidden_below t n :
  n ∈ hidden d t ->
  exists k m kids,
    sub (Node k m kids) t /\ descend d k m = false /\ n ∈ below m t.
Proof.
  induction t as [k l kids IH] using tree_induction. intros Hhid.
  rewrite Forall_forall in IH. simpl in Hhid.
  destruct (descend d k l) eqn:Hd.
  - apply elem_of_concat_map in Hhid as (c & Hc & Hn).
    destruct (IH c Hc Hn) as (k' & m & kids' & Hsub & Hd' & Hb).
    exists k', m, kids'. split; [by eapply sub_kid|]. split; [done|].
    simpl. destruct (decide (l = m)).
    + apply elem_of_concat_map. exists c. split; [done|].
      by apply below_nodes in Hb as [? _].
    + apply elem_of_concat_map. eauto.
  - exists k, l, kids. split; [constructor|]. split; [done|].
    simpl. by rewrite decide_True.
Qed.

(** The addresses below a node where the pass cuts are hidden. *)
Lemma below_hidden t k m kids n :
  NoDup (nodes t) ->
  sub (Node k m kids) t -> descend d k m = false ->
  n ∈ below m t -> n ∈ hidden d t.
Proof.
  induction t as [k0 l kids0 IH] using tree_induction.
  intros Hnd Hsub Hd Hb. rewrite Forall_forall in IH.
  pose proof Hnd as [Hl Hnd']%NoDup_cons.
  simpl in Hb. simpl.
  inversion Hsub as [Heq|k1 l1 kids1 c Hc Hsubc]; subst.
  - rewrite Hd. by rewrite decide_True in Hb.
  - assert (Hm : m ∈ nodes c) by (eapply sub_nodes; [exact Hsubc|by left]).
    destruct (decide (l = m)) as [->|Hne].
    { destruct Hl. apply elem_of_concat_map. eauto. }
    apply elem_of_concat_map in Hb as (c' & Hc' & Hb).
    destruct (descend d k0 l).
    + assert (c = c') as <-.
      { eapply (NoDup_kids_eq kids0); eauto.
        by apply below_nodes in Hb as [_ ?]. }
      apply elem_of_concat_map. exists c. split; [done|].
      eapply IH; eauto using NoDup_kid.
    + apply elem_of_concat_map. exists c'. split; [done|].
      by apply below_nodes in Hb as [? _].
Qed.

End Cut.

Lemma follows_override_visit {S : Type} heap (K : kind)
    (pre : loc -> S -> S) (go : loc -> bool) (post : loc -> S -> S) :
  follows heap
    (override_visit (Visitor heap) K (visit_body heap pre go post K))
    (cutting K pre go post).
Proof.
  split.
  - intros this op [tr u]. reflexivity.
  - intros k this op [tr u]. unfold override_visit. cbn [visit cutting before descend after].
    destruct (decide (k = K)) as [->|Hne]; [reflexivity|].
    unfold visit_body, bind, work, ret. cbn [visit Visitor trace user].
    destruct (Visitor_visit heap k this op _) as [[[]| | |] [tr' u']];
      reflexivity.
Qed.

(** ** Scenarios *)

(** First scenario of section 8: a pass that overrides only [Var], to count,
    and then invokes the default, counts two variables. *)
Example counting_vars_S1 :
  walk (override_visit (Visitor Examples.heap_S1) Var
          (visit_body Examples.heap_S1 (fun _ n => Datatypes.S n)
             (fun _ => true) (fun _ n => n) Var))
       12 (Some 1%positive) (mkWorld [] 0)
  = (Ret tt, mkWorld (preorder Examples.tree_S1) 2).
Proof. vm_compute. reflexivity. Qed.

(** Fourth scenario: the default walk of a conditional without else branch
    returns, and enters one assignment. *)
Example absent_else_S4 :
  walk (Visitor Examples.heap_S4) 6 (Some 1%positive) (mkWorld [] tt)
  = (Ret tt, mkWorld (preorder Examples.tree_S4) tt)
  /\ occurrences 5%positive (entered (preorder Examples.tree_S4)) = 1.
Proof. split; vm_compute; reflexivity. Qed.

(** Fifth scenario: the kinds in the order their handlers are entered. *)
Example preorder_S5 :
  walk (Visitor Examples.heap_S5) 6 (Some 1%positive) (mkWorld [] tt)
  = (Ret tt,
     mkWorld [Enter Add 1; Enter Mul 2; Enter Integer 3; Leave Integer 3;
              Enter Integer 4; Leave Integer 4; Leave Mul 2;
              Enter Integer 5; Leave Integer 5; Leave Add 1] tt).
Proof. vm_compute. reflexivity. Qed.

(** Sixth scenario: a tag outside the closed set. *)
Example unknown_kind_S6 (fuel : nat) :
  walk (Visitor Examples.heap_S6) (Datatypes.S fuel) (Some 1%positive)
       (mkWorld [] tt)
  = (Throw UnknownKind, mkWorld [] tt).
Proof. reflexivity. Qed.

(** The pass that records the argument of every call of its entry operation
    sees the eight nodes of the first scenario. *)
Example recording_entry_S1 :
  walk (override_call (Visitor Examples.heap_S1)
          (call_body Examples.heap_S1 (fun op s => s ++ [op])))
       12 (Some 1%positive) (mkWorld [] [])
  = (Ret tt,
     mkWorld (preorder Examples.tree_S1)
             (map Some [1; 2; 3; 4; 5; 6; 7; 8]%positive)).
Proof. vm_compute. reflexivity. Qed.

(** An overriding body is any method body: it may also walk children by
    calling the entry operation of the object itself.  Here the override of
    [While] walks the body of the loop and not its condition. *)
Example override_walks_body_only_S2 :
  walk (override_visit (Visitor Examples.heap_S2) While
          (fun this _ => self_call this (Some 5%positive)))
       10 (Some 1%positive) (mkWorld [] tt)
  = (Ret tt,
     mkWorld (Enter While 1
                :: preorder (Node StmtSeq 5 [Node Assign 6
                     [Node Var 7 [];
                      Node Add 8 [Node Var 9 []; Node Integer 10 []]]])
                ++ [Leave While 1]) tt).
Proof. vm_compute. reflexivity. Qed.

(** The second scenario of section 8: a pass that overrides [While] to do
    nothing visits the loop and nothing below it. *)
Example cut_off_S2 :
  walk (override_visit (Visitor Examples.heap_S2) While (fun _ _ => ret tt))
       8 (Some 1%positive) (mkWorld [] tt)
  = (Ret tt, mkWorld [Enter While 1; Leave While 1] tt).
Proof. vm_compute. reflexivity. Qed.

(** Without the tree hypothesis the walk need not terminate: on a heap with
    a cycle it exhausts every amount of fuel. *)
Lemma cyclic_heap_starves (fuel : nat) :
  fst (walk (Visitor Examples.heap_cycle) fuel (Some 1%positive) (mkWorld [] tt))
  = Starved.
Proof.
  assert (H : forall n tr,
             fst (walk (Visitor Examples.heap_cycle) n (Some 1%positive)
                    (mkWorld tr tt)) = Starved
             /\ fst (walk (Visitor Examples.heap_cycle) (Datatypes.S n)
                       (Some 1%positive) (mkWorld tr tt)) = Starved).
  { induction n as [|n IH]; intros tr.
    - split; reflexivity.
    - split; [apply IH|].
      destruct (IH (tr ++ [Enter Function 1])) as [IHn _].
      unfold walk in *. rewrite self_call_S. cbn [call Visitor].
      rewrite (Visitor_call_known _ _ 1%positive (FunctionNode (Some 1%positive))
                 Function) by reflexivity.
      rewrite self_visit_S. unfold bind at 1, emit at 1. cbn [visit Visitor].
      unfold bind at 1.
      rewrite (Visitor_visit_children _ _ 1%positive
                 (FunctionNode (Some 1%positive)) Function) by reflexivity.
      simpl for_each. unfold bind at 1. simpl trace. simpl user.
      destruct (self_call (object (Visitor Examples.heap_cycle) n)
                  (Some 1%positive) _) as [[[]| | |] w'];
        simpl in IHn; try discriminate. reflexivity. }
  apply H.
Qed.

(** ** The properties of the specification *)

(** C1. In a default walk of a tree whose nodes all carry a tag of the
    closed set, the handler of every node [N] of the tree is invoked exactly
    once, and it is the handler of the kind of [N]: the walk returns, [N]
    occurs once among the entered addresses, and every [Enter] event at [N]
    carries the kind read from the node. *)
Theorem default_walk_visits_each_node_once
    {S : Type} (heap : gmap loc ASTNode) (t : tree) (s : S) (N : loc) (fuel : nat) :
  shape heap t = true ->
  NoDup (nodes t) ->
  N ∈ nodes t ->
  2 * height t <= fuel ->
  exists tr nd k,
    walk (Visitor heap) fuel (Some (root t)) (mkWorld [] s) = (Ret tt, mkWorld tr s)
    /\ occurrences N (entered tr) = 1
    /\ heap !! N = Some nd /\ nodeType nd = Of k
    /\ (forall k', Enter k' N ∈ tr <-> k' = k).
Proof.
  intros Hshape Hnd Hin Hfuel.
  destruct (shape_nodes heap t N Hshape Hin) as ([k n kids] & Hsub & Hroot).
  simpl in Hroot. subst n.
  destruct (sub_heap heap t k N kids Hshape Hsub) as (nd & Hl & Hk & _).
  exists (preorder t), nd, k. repeat split; trivial.
  - by rewrite (default_walk heap t Hshape fuel Hfuel).
  - rewrite entered_preorder. by apply occurrences_NoDup.
  - intros (kids' & Hsub')%Enter_preorder.
    destruct (sub_heap heap t k' N kids' Hshape Hsub') as (nd' & Hl' & Hk' & _).
    congruence.
  - intros ->. by eapply preorder_Enter.
Qed.

Lemma default_walk_visits_each_node_once_witness :
  exists tr nd k,
    walk (Visitor Examples.heap_S1) 12 (Some 1%positive) (mkWorld [] tt)
    = (Ret tt, mkWorld tr tt)
    /\ occurrences 7%positive (entered tr) = 1
    /\ Examples.heap_S1 !! 7%positive = Some nd /\ nodeType nd = Of k
    /\ (forall k', Enter k' 7%positive ∈ tr <-> k' = k).
Proof.
  apply (default_walk_visits_each_node_once
           Examples.heap_S1 Examples.tree_S1 tt 7%positive 12).
  - vm_compute. reflexivity.
  - apply (bool_decide_unpack _). vm_compute. exact I.
  - apply (bool_decide_unpack _). vm_compute. exact I.
  - simpl. lia.
Defined.

(** C2. In a default walk, the events of a compound node are the [Enter] of
    the node, then, for each child in the order the data model declares
    ([children]), the complete trace of the default walk of that child, then
    the [Leave] of the node.  The trace of a child begins with the [Enter]
    of the child's own handler, ends with its [Leave], and is only about
    nodes of the child's subtree: the subtree of a child is finished before
    the next sibling begins. *)
Theorem default_walk_children_in_declared_order
    {S : Type} (heap : gmap loc ASTNode) (t : tree) (k : kind) (l : loc)
    (kids : list tree) (s : S) (fuel : nat) :
  shape heap t = true ->
  sub (Node k l kids) t ->
  2 * height t <= fuel ->
  exists nd pre post,
    heap !! l = Some nd
    /\ children nd = map (fun c => Some (root c)) kids
    /\ walk (Visitor heap) fuel (Some (root t)) (mkWorld [] s)
       = (Ret tt,
          mkWorld (pre ++ Enter k l :: concat (map preorder kids)
                       ++ Leave k l :: post) s)
    /\ Forall (fun c =>
                 walk (Visitor heap) fuel (Some (root c)) (mkWorld [] s)
                 = (Ret tt, mkWorld (preorder c) s)
                 /\ (exists mid, preorder c
                      = Enter (kind_of c) (root c) :: mid
                        ++ [Leave (kind_of c) (root c)])
                 /\ (forall e, e ∈ preorder c -> event_loc e ∈ nodes c))
              kids.
Proof.
  intros Hshape Hsub Hfuel.
  destruct (sub_heap heap t k l kids Hshape Hsub) as (nd & Hl & Hk & Hch).
  destruct (preorder_sub _ _ Hsub) as (pre & post & Hpre).
  exists nd, pre, post. repeat split; trivial.
  - rewrite (default_walk heap t Hshape fuel Hfuel). simpl. rewrite Hpre.
    simpl. by rewrite <- !app_assoc.
  - apply Forall_forall. intros c Hc.
    assert (Hsubc : sub c t) by (eapply sub_trans_kid; eauto).
    repeat split.
    + apply (default_walk heap c).
      * by eapply shape_sub.
      * pose proof (height_sub _ _ Hsubc). lia.
    + destruct c as [kc lc kidsc]. simpl. eauto.
    + apply preorder_event_loc.
Qed.

Lemma default_walk_children_in_declared_order_witness :
  exists nd pre post,
    Examples.heap_S1 !! 4%positive = Some nd
    /\ children nd
       = map (fun c => Some (root c))
             [Node Var 5 []; Node Add 6 [Node Var 7 []; Node Integer 8 []]]
    /\ walk (Visitor Examples.heap_S1) 12 (Some 1%positive) (mkWorld [] tt)
       = (Ret tt,
          mkWorld (pre ++ Enter Assign 4
                     :: concat (map preorder
                          [Node Var 5 [];
                           Node Add 6 [Node Var 7 []; Node Integer 8 []]])
                     ++ Leave Assign 4 :: post) tt)
    /\ Forall (fun c =>
                 walk (Visitor Examples.heap_S1) 12 (Some (root c)) (mkWorld [] tt)
                 = (Ret tt, mkWorld (preorder c) tt)
                 /\ (exists mid, preorder c
                      = Enter (kind_of c) (root c) :: mid
                        ++ [Leave (kind_of c) (root c)])
                 /\ (forall e, e ∈ preorder c -> event_loc e ∈ nodes c))
              [Node Var 5 []; Node Add 6 [Node Var 7 []; Node Integer 8 []]].
Proof.
  apply (default_walk_children_in_declared_order
           Examples.heap_S1 Examples.tree_S1 Assign 4%positive
           [Node Var 5 []; Node Add 6 [Node Var 7 []; Node Integer 8 []]]
           tt 12).
  - vm_compute. reflexivity.
  - unfold Examples.tree_S1.
    do 3 (eapply sub_kid; [apply list_elem_of_here|]). apply sub_here.
  - simpl. lia.
Defined.

(** C3, as the code has it.  When a default handler meets a null handle
    among the declared children of its node, it passes the handle to the
    entry operation, which dereferences it: the behaviour is undefined.  No
    exception is thrown and no default is substituted; the children before
    the null handle have been walked, the handler of the node has not
    returned. *)
Theorem absent_required_child_is_undefined
    {S : Type} (heap : gmap loc ASTNode) (l : loc) (nd : ASTNode) (k : kind)
    (kids : list tree) (rest : list ptr) (fuel : nat) (w : World S) :
  heap !! l = Some nd ->
  nodeType nd = Of k ->
  children nd = map (fun c => Some (root c)) kids ++ None :: rest ->
  Forall (fun c => shape heap c = true) kids ->
  2 * height (Node k l kids) + 1 <= fuel ->
  walk (Visitor heap) fuel (Some l) w
  = (Undef, mkWorld (trace w ++ Enter k l :: concat (map preorder kids)) (user w)).
Proof.
  intros Hl Hk Hch Hkids Hfuel.
  destruct fuel as [|[|[|fuel]]]; [simpl in Hfuel; lia..|].
  assert (Hrec : Forall (fun c => shape heap c = true
                                  /\ 2 * height c <= Datatypes.S fuel) kids).
  { apply Forall_forall. intros c Hc. rewrite Forall_forall in Hkids.
    split; [auto|]. pose proof (height_kid k l kids c Hc). lia. }
  unfold walk. rewrite self_call_S. cbn [call Visitor].
  rewrite (Visitor_call_known heap _ l nd k) by assumption.
  rewrite self_visit_S. unfold bind at 1, emit at 1. cbn [visit Visitor].
  unfold bind at 1.
  rewrite (Visitor_visit_children heap _ l nd k) by assumption.
  rewrite Hch, for_each_app. unfold bind at 1.
  rewrite (for_each_kids_default heap _ kids _ Hrec).
  cbn [for_each]. unfold bind at 1. rewrite self_call_S. cbn [call Visitor].
  simpl. by rewrite <- app_assoc.
Qed.

Lemma absent_required_child_is_undefined_witness :
  walk (Visitor Examples.heap_no_expr) 5 (Some 1%positive) (mkWorld [] tt)
  = (Undef, mkWorld ([] ++ Enter Assign 1 :: concat (map preorder [Node Var 2 []])) tt).
Proof.
  apply (absent_required_child_is_undefined
           Examples.heap_no_expr 1%positive (AssignNode (Some 2%positive) None)
           Assign [Node Var 2 []] [] 5 (mkWorld [] tt)).
  - vm_compute. reflexivity.
  - reflexivity.
  - reflexivity.
  - repeat constructor.
  - simpl. lia.
Defined.

(** C3, as the specification states it, fails: the default walk of a
    function whose body is the null handle throws nothing, whatever the
    fuel. *)
Lemma absent_required_child_throws_nothing :
  Examples.heap_no_body !! 1%positive = Some (FunctionNode None)
  /\ ~ (exists fuel e,
          fst (walk (Visitor Examples.heap_no_body) fuel (Some 1%positive)
                 (mkWorld [] tt)) = Throw e)
  /\ (forall fuel,
        walk (Visitor Examples.heap_no_body) (3 + fuel) (Some 1%positive)
             (mkWorld [] tt)
        = (Undef, mkWorld [Enter Function 1] tt)).
Proof.
  split; [vm_compute; reflexivity|]. split.
  - intros (fuel & e & H).
    destruct fuel as [|[|[|fuel]]]; vm_compute in H; discriminate.
  - reflexivity.
Qed.

(** C4. At a node in the heap, the entry operation of [Visitor] throws the
    unknown-kind exception of its own accord exactly when the tag of the
    node is outside the closed set.  When it does, nothing is recorded and
    no method of the object is called (the outcome does not depend on the
    object, and the trace and the state are untouched).  When the tag is in
    the closed set, the entry operation is the virtual call of the handler
    of that kind, so the [default:] label is not reached; and in the default
    walk of a tree, whose nodes all carry tags of the closed set, it is
    reached nowhere: the walk returns. *)
Theorem entry_throws_iff_tag_outside_closed_set
    {S : Type} (heap : gmap loc ASTNode) (l : loc) (nd : ASTNode) (s : S) :
  heap !! l = Some nd ->
  ((forall this (w : World S),
       fst (Visitor_call heap this (Some l) w) = Throw UnknownKind)
   <-> (forall k, nodeType nd <> Of k))
  /\ ((forall k, nodeType nd <> Of k) ->
      (forall this (w : World S),
          Visitor_call heap this (Some l) w = (Throw UnknownKind, w))
      /\ (forall fuel (w : World S),
             walk (Visitor heap) (Datatypes.S fuel) (Some l) w
             = (Throw UnknownKind, w)))
  /\ (forall k, nodeType nd = Of k ->
      forall this (w : World S),
        Visitor_call heap this (Some l) w = self_visit this k l w)
  /\ (forall t fuel (w : World S),
        shape heap t = true -> root t = l -> 2 * height t <= fuel ->
        fst (walk (Visitor heap) fuel (Some l) w) = Ret tt).
Proof.
  intros Hl.
  assert (Hout : (forall k, nodeType nd <> Of k) ->
                 forall this (w : World S),
                   Visitor_call heap this (Some l) w = (Throw UnknownKind, w)).
  { intros Hk this w. unfold Visitor_call, deref, load, bind, ret.
    rewrite Hl. simpl. destruct (nodeType nd) as [k|raw]; [|reflexivity].
    by destruct (Hk k). }
  split; [split|split; [|split]].
  - intros Hthrow k Hk.
    specialize (Hthrow (mkSelf (fun _ => ret tt) (fun _ _ => ret tt))
                       (mkWorld [] s)).
    rewrite (Visitor_call_known heap _ l nd k) in Hthrow by assumption.
    discriminate.
  - intros Hk this w. by rewrite Hout.
  - intros Hk. split; [by apply Hout|].
    intros fuel w. unfold walk. rewrite self_call_S. by apply Hout.
  - intros k Hk this w. by apply Visitor_call_known with nd.
  - intros t fuel w Hshape <- Hfuel.
    by rewrite (default_walk heap t Hshape fuel Hfuel).
Qed.

Lemma entry_throws_iff_tag_outside_closed_set_witness :
  ((forall this (w : World unit),
       fst (Visitor_call Examples.heap_S6 this (Some 1%positive) w)
       = Throw UnknownKind)
   <-> (forall k, nodeType (ForeignNode 99) <> Of k))
  /\ ((forall k, nodeType (ForeignNode 99) <> Of k) ->
      (forall this (w : World unit),
          Visitor_call Examples.heap_S6 this (Some 1%positive) w
          = (Throw UnknownKind, w))
      /\ (forall fuel (w : World unit),
             walk (Visitor Examples.heap_S6) (Datatypes.S fuel) (Some 1%positive) w
             = (Throw UnknownKind, w)))
  /\ (forall k, nodeType (ForeignNode 99) = Of k ->
      forall this (w : World unit),
        Visitor_call Examples.heap_S6 this (Some 1%positive) w
        = self_visit this k 1%positive w)
  /\ (forall t fuel (w : World unit),
        shape Examples.heap_S6 t = true -> root t = 1%positive ->
        2 * height t <= fuel ->
        fst (walk (Visitor Examples.heap_S6) fuel (Some 1%positive) w) = Ret tt).
Proof.
  apply (entry_throws_iff_tag_outside_closed_set
           Examples.heap_S6 1%positive (ForeignNode 99) tt).
  vm_compute. reflexivity.
Defined.

(** C5. A default walk of a tree that contains an [IfThenElse] node whose
    [elseCase_] is the null handle returns.  The handler of that node calls
    the entry operation on [cond_] and then on [thenCase_] and makes no
    call for the absent branch; in the trace, the node's segment is its
    [Enter], the walk of the condition, the walk of the then-branch, and its
    [Leave]. *)
Theorem default_walk_skips_absent_else
    {S : Type} (heap : gmap loc ASTNode) (t : tree) (l : loc)
    (cond_ thenCase_ : ptr) (kids : list tree) (s : S) (fuel : nat) :
  shape heap t = true ->
  sub (Node IfThenElse l kids) t ->
  heap !! l = Some (IfThenElseNode cond_ thenCase_ None) ->
  2 * height t <= fuel ->
  (forall this (w : World S),
      Visitor_visit heap IfThenElse this l w
      = (self_call this cond_ ;; self_call this thenCase_) w)
  /\ exists c1 c2 pre post,
       kids = [c1; c2]
       /\ cond_ = Some (root c1) /\ thenCase_ = Some (root c2)
       /\ walk (Visitor heap) fuel (Some (root t)) (mkWorld [] s)
          = (Ret tt,
             mkWorld (pre ++ Enter IfThenElse l :: preorder c1 ++ preorder c2
                          ++ Leave IfThenElse l :: post) s).
Proof.
  intros Hshape Hsub Hl Hfuel. split.
  - intros this w.
    rewrite (Visitor_visit_children heap this l _ IfThenElse w Hl eq_refl).
    simpl. unfold bind, ret.
    destruct (self_call this cond_ w) as [[[]| | |] w1]; try reflexivity.
    destruct (self_call this thenCase_ w1) as [[[]| | |] w2]; reflexivity.
  - destruct (sub_heap heap t _ l kids Hshape Hsub) as (nd & Hl' & _ & Hch).
    rewrite Hl in Hl'. injection Hl' as <-. simpl in Hch.
    destruct kids as [|c1 [|c2 [|c3 kids]]]; try discriminate.
    injection Hch as -> ->.
    destruct (preorder_sub _ _ Hsub) as (pre & post & Hpre).
    exists c1, c2, pre, post. repeat split.
    rewrite (default_walk heap t Hshape fuel Hfuel). simpl. rewrite Hpre.
    simpl. by rewrite app_nil_r, <- !app_assoc.
Qed.

Lemma default_walk_skips_absent_else_witness :
  (forall this (w : World unit),
      Visitor_visit Examples.heap_S4 IfThenElse this 1%positive w
      = (self_call this (Some 2%positive) ;; self_call this (Some 5%positive)) w)
  /\ exists c1 c2 pre post,
       kids_of Examples.tree_S4 = [c1; c2]
       /\ Some 2%positive = Some (root c1) /\ Some 5%positive = Some (root c2)
       /\ walk (Visitor Examples.heap_S4) 6 (Some 1%positive) (mkWorld [] tt)
          = (Ret tt,
             mkWorld (pre ++ Enter IfThenElse 1 :: preorder c1 ++ preorder c2
                          ++ Leave IfThenElse 1 :: post) tt).
Proof.
  apply (default_walk_skips_absent_else
           Examples.heap_S4 Examples.tree_S4 1%positive
           (Some 2%positive) (Some 5%positive) (kids_of Examples.tree_S4) tt 6).
  - vm_compute. reflexivity.
  - apply sub_here.
  - vm_compute. reflexivity.
  - simpl. lia.
Defined.

(** C6, as the code has it.  A pass overrides the handler of kind [K] with
    a body that does its own work and then either returns or invokes the
    default handler.  If at the node [N] of kind [K] it returns without
    invoking the default, no node below [N] is visited.  The override runs
    at every node of kind [K]; a node that is not below any node where it
    returns without invoking the default receives the same handler
    invocations as under the default walk. *)
Theorem override_cuts_below_and_only_below
    {S : Type} (heap : gmap loc ASTNode) (t : tree) (K : kind) (N : loc)
    (kidsN : list tree) (pre : loc -> S -> S) (go : loc -> bool)
    (post : loc -> S -> S) (s : S) (fuel : nat) :
  shape heap t = true ->
  NoDup (nodes t) ->
  sub (Node K N kidsN) t ->
  go N = false ->
  2 * height t <= fuel ->
  exists tr s' tr0,
    walk (override_visit (Visitor heap) K (visit_body heap pre go post K))
         fuel (Some (root t)) (mkWorld [] s)
    = (Ret tt, mkWorld tr s')
    /\ walk (Visitor heap) fuel (Some (root t)) (mkWorld [] s)
       = (Ret tt, mkWorld tr0 s)
    /\ (forall n, n ∈ below N t -> events_at n tr = [])
    /\ (forall n,
          (forall M kidsM,
              sub (Node K M kidsM) t -> go M = false -> n ∉ below M t) ->
          events_at n tr = events_at n tr0).
Proof.
  intros Hshape Hnd Hsub Hgo Hfuel.
  exists (events (cutting K pre go post) t),
         (effect (cutting K pre go post) t s),
         (preorder t).
  split; [|split; [|split]].
  - by rewrite (walk_follows heap _ _ (follows_override_visit heap K pre go post)
                  t Hshape fuel Hfuel).
  - by rewrite (default_walk heap t Hshape fuel Hfuel).
  - intros n Hn. apply events_at_nil. intros e He <-.
    apply (events_not_hidden (cutting K pre go post) t e Hnd He).
    eapply below_hidden; eauto.
    simpl. by rewrite decide_True.
  - intros n Hn. apply events_at_not_hidden.
    intros (k & m & kids & Hsubm & Hd & Hb)%hidden_below.
    simpl in Hd. destruct (decide (k = K)) as [->|]; [|discriminate].
    by eapply Hn.
Qed.

Lemma override_cuts_below_and_only_below_witness :
  exists tr s' tr0,
    walk (override_visit (Visitor Examples.heap_loops) While
            (visit_body Examples.heap_loops
               (fun _ (s : nat) => Datatypes.S s)
               (fun l => negb (Pos.eqb l 2)) (fun _ s => s) While))
         6 (Some 1%positive) (mkWorld [] 0)
    = (Ret tt, mkWorld tr s')
    /\ walk (Visitor Examples.heap_loops) 6 (Some 1%positive) (mkWorld [] 0)
       = (Ret tt, mkWorld tr0 0)
    /\ (forall n, n ∈ below 2%positive Examples.tree_loops -> events_at n tr = [])
    /\ (forall n,
          (forall M kidsM,
              sub (Node While M kidsM) Examples.tree_loops ->
              negb (Pos.eqb M 2) = false -> n ∉ below M Examples.tree_loops) ->
          events_at n tr = events_at n tr0).
Proof.
  apply (override_cuts_below_and_only_below
           Examples.heap_loops Examples.tree_loops While 2%positive
           [Node Var 3 []; Node StmtSeq 4 []]
           (fun _ (s : nat) => Datatypes.S s)
           (fun l => negb (Pos.eqb l 2)) (fun _ s => s) 0 6).
  - vm_compute. reflexivity.
  - apply (bool_decide_unpack _). vm_compute. exact I.
  - unfold Examples.tree_loops.
    eapply sub_kid; [apply list_elem_of_here|]. apply sub_here.
  - reflexivity.
  - simpl. lia.
Defined.

(** C6, as the specification states it, fails.  In a block of two loops, a
    pass overrides the handler of [While] to do nothing.  The override does
    not invoke the default at the first loop [N = 2]; the condition of the
    second loop, at address 6, is not below [N], yet its handler, which the
    default walk invokes, is not invoked. *)
Lemma override_cuts_below_other_nodes_too :
  sub (Node While 2 [Node Var 3 []; Node StmtSeq 4 []]) Examples.tree_loops
  /\ shape Examples.heap_loops Examples.tree_loops = true
  /\ 6%positive ∈ nodes Examples.tree_loops
  /\ (6%positive ∉ below 2%positive Examples.tree_loops)
  /\ events_at 6%positive
       (trace (snd (walk (override_visit (Visitor Examples.heap_loops) While
                            (fun _ _ => ret tt))
                      6 (Some 1%positive) (mkWorld [] tt))))
     = []
  /\ events_at 6%positive
       (trace (snd (walk (Visitor Examples.heap_loops)
                      6 (Some 1%positive) (mkWorld [] tt))))
     = [Enter Var 6; Leave Var 6]
  /\ events_at 6%positive
       (trace (snd (walk (override_visit (Visitor Examples.heap_loops) While
                            (fun _ _ => ret tt))
                      6 (Some 1%positive) (mkWorld [] tt))))
     <> events_at 6%positive
          (trace (snd (walk (Visitor Examples.heap_loops)
                         6 (Some 1%positive) (mkWorld [] tt)))).
Proof.
  split.
  { unfold Examples.tree_loops.
    eapply sub_kid; [apply list_elem_of_here|]. apply sub_here. }
  split; [vm_compute; reflexivity|].
  split; [apply (bool_decide_unpack _); vm_compute; exact I|].
  split; [apply (bool_decide_unpack _); vm_compute; exact I|].
  split; [vm_compute; reflexivity|].
  split; [vm_compute; reflexivity|].
  vm_compute. discriminate.
Qed.

(** C7. The default handlers of [Call], [Integer] and [Var] walk no
    children: whatever the object, the handler returns at once and leaves
    the trace and the state as they were; a default walk of such a node
    records the [Enter] and the [Leave] of that node and nothing else. *)
Theorem leaf_handlers_walk_no_children
    {S : Type} (heap : gmap loc ASTNode) (l : loc) (nd : ASTNode) (k : kind)
    (w : World S) (fuel : nat) :
  heap !! l = Some nd ->
  nodeType nd = Of k ->
  k = Call \/ k = Integer \/ k = Var ->
  (forall this, Visitor_visit heap k this l w = (Ret tt, w))
  /\ walk (Visitor heap) (Datatypes.S (Datatypes.S fuel)) (Some l) w
     = (Ret tt, mkWorld (trace w ++ [Enter k l; Leave k l]) (user w)).
Proof.
  intros Hl Hk Hleaf.
  assert (Hvisit : forall this (w' : World S),
             Visitor_visit heap k this l w' = (Ret tt, w')).
  { intros this w'. destruct Hleaf as [->|[->| ->]]; reflexivity. }
  split; [auto|].
  unfold walk. rewrite self_call_S. cbn [call Visitor].
  rewrite (Visitor_call_known heap _ l nd k) by assumption.
  rewrite self_visit_S. unfold bind, emit. cbn [visit Visitor]. rewrite Hvisit.
  simpl. by rewrite <- app_assoc.
Qed.

Lemma leaf_handlers_walk_no_children_witness :
  (forall this,
      Visitor_visit Examples.heap_S1 Var this 5%positive (mkWorld [] tt)
      = (Ret tt, mkWorld [] tt))
  /\ walk (Visitor Examples.heap_S1) 2 (Some 5%positive) (mkWorld [] tt)
     = (Ret tt, mkWorld [Enter Var 5; Leave Var 5] tt).
Proof.
  apply (leaf_handlers_walk_no_children
           Examples.heap_S1 5%positive VarNode Var (mkWorld [] tt) 0).
  - vm_compute. reflexivity.
  - reflexivity.
  - right. right. reflexivity.
Defined.

(** C8. The default walk of a heap that holds a finite tree terminates: from
    some amount of fuel on, the walk returns, whatever the initial state. *)
Theorem default_walk_terminates
    {S : Type} (heap : gmap loc ASTNode) (t : tree) :
  shape heap t = true ->
  exists fuel0, forall fuel, fuel0 <= fuel ->
    forall w : World S, exists w',
      walk (Visitor heap) fuel (Some (root t)) w = (Ret tt, w').
Proof.
  intros Hshape. exists (2 * height t). intros fuel Hfuel w.
  eexists. by apply default_walk.
Qed.

Lemma default_walk_terminates_witness :
  exists fuel0, forall fuel, fuel0 <= fuel ->
    forall w : World unit, exists w',
      walk (Visitor Examples.heap_S2) fuel (Some 1%positive) w = (Ret tt, w').
Proof.
  apply (default_walk_terminates Examples.heap_S2 Examples.tree_S2).
  vm_compute. reflexivity.
Defined.

(** C9. The entry operation makes no test of its own argument: on the null
    handle it dereferences the handle to read the tag, which is undefined
    behaviour, whatever the object; nothing is thrown and nothing is
    recorded.  Conversely, whenever an exception leaves the entry operation,
    its argument was a handle to a node of the heap whose tag was read. *)
Theorem entry_dereferences_null_handle
    {S : Type} (heap : gmap loc ASTNode) :
  (forall this (w : World S), Visitor_call heap this None w = (Undef, w))
  /\ (forall fuel (w : World S),
        walk (Visitor heap) (Datatypes.S fuel) None w = (Undef, w))
  /\ (forall this op (w w' : World S) e,
        Visitor_call heap this op w = (Throw e, w') ->
        exists l nd, op = Some l /\ heap !! l = Some nd).
Proof.
  split; [|split].
  - reflexivity.
  - reflexivity.
  - intros this op w w' e. unfold Visitor_call, deref, load, bind, ret, undef.
    destruct op as [l|]; [|discriminate].
    destruct (heap !! l) as [nd|] eqn:Hl; [|discriminate].
    intros _. by exists l, nd.
Qed.

Lemma entry_dereferences_null_handle_witness :
  Visitor_call Examples.heap_S6 (object (Visitor Examples.heap_S6) 0) None
    (mkWorld [] tt)
  = (Undef, mkWorld [] tt)
  /\ exists l nd, Some 1%positive = Some l /\ Examples.heap_S6 !! l = Some nd.
Proof.
  split.
  - apply (proj1 (entry_dereferences_null_handle Examples.heap_S6)).
  - apply (proj2 (proj2 (entry_dereferences_null_handle Examples.heap_S6))
             (object (Visitor Examples.heap_S6) 0) (Some 1%positive)
             (mkWorld [] tt) (mkWorld [] tt) UnknownKind).
    reflexivity.
Defined.

(** C10. Every recursive descent of a default handler goes through the
    entry operation of the object: the outcome of a default handler depends
    on the object only through its [operator()].  Consequently a subclass
    that overrides [operator()], doing work [f] of its own before it calls
    the inherited one, has [f] applied at every node of the tree, in
    pre-order, and not only at the handle the caller passed. *)
Theorem descent_goes_through_entry_operation
    {S : Type} (heap : gmap loc ASTNode) :
  (forall k this this' l (w : World S),
      (forall op w', self_call this op w' = self_call this' op w') ->
      Visitor_visit heap k this l w = Visitor_visit heap k this' l w)
  /\ (forall (f : ptr -> S -> S) t,
        shape heap t = true ->
        forall fuel, 2 * height t <= fuel ->
        forall s,
          walk (override_call (Visitor heap) (call_body heap f)) fuel
               (Some (root t)) (mkWorld [] s)
          = (Ret tt,
             mkWorld (preorder t)
                     (foldl (fun s' n => f (Some n) s') s (nodes t)))).
Proof.
  split.
  - intros k this this' l w H.
    destruct k; unfold Visitor_visit, VISIT_BINARY_NODE, load, bind;
      try reflexivity;
      (destruct (heap !! l) as [nd|]; [|reflexivity]);
      destruct nd; try reflexivity; unfold ret; cbn [binary_fields];
      try (by apply for_each_ext);
      repeat (rewrite H;
              match goal with
              | |- context [self_call this' ?op ?w0] =>
                  destruct (self_call this' op w0) as [[[]| | |] ?]
              end; try reflexivity);
      try (destruct elseCase_; [apply H|reflexivity]).
  - intros f t Hshape fuel Hfuel s.
    rewrite (walk_follows heap _ _ (follows_override_call heap f) t Hshape
               fuel Hfuel).
    simpl. by rewrite events_descend, effect_on_entry.
Qed.

Lemma descent_goes_through_entry_operation_witness :
  walk (override_call (Visitor Examples.heap_S1)
          (call_body Examples.heap_S1 (fun op s => s ++ [op])))
       12 (Some 1%positive) (mkWorld [] [])
  = (Ret tt,
     mkWorld (preorder Examples.tree_S1)
             (foldl (fun s' n => s' ++ [Some n]) [] (nodes Examples.tree_S1))).
Proof.
  apply (proj2 (descent_goes_through_entry_operation Examples.heap_S1)
           (fun op s => s ++ [op]) Examples.tree_S1).
  - vm_compute. reflexivity.
  - simpl. lia.
Defined.

(** ** Further properties *)

(** When two handles alias one node, the default walk enters that node once
    per handle: the exactly-once property needs a tree. *)
Lemma shared_node_is_entered_twice :
  shape Examples.heap_shared Examples.dag_shared = true
  /\ exists tr,
       walk (Visitor Examples.heap_shared) 4 (Some 1%positive) (mkWorld [] tt)
       = (Ret tt, mkWorld tr tt)
       /\ occurrences 2%positive (entered tr) = 2.
Proof.
  split; [vm_compute; reflexivity|].
  eexists. split; vm_compute; reflexivity.
Qed.

(** An unknown tag met during the walk aborts the whole walk: the exception
    leaves the entry operation applied to the root, the handlers in progress
    do not return, the statements after the offending one are not visited,
    and what was recorded before is kept. *)
Lemma unknown_kind_inside_aborts_the_walk (fuel : nat) :
  walk (Visitor Examples.heap_foreign_inside)
       (6 + fuel) (Some 1%positive) (mkWorld [] tt)
  = (Throw UnknownKind,
     mkWorld [Enter StmtSeq 1; Enter Invoke 2; Enter Call 5; Leave Call 5;
              Leave Invoke 2] tt).
Proof. reflexivity. Qed.

(** Two successive default walks of the same tree record the same events. *)
Theorem successive_default_walks_agree
    {S : Type} (heap : gmap loc ASTNode) (t : tree) (fuel : nat) (w : World S) :
  shape heap t = true ->
  2 * height t <= fuel ->
  (walk (Visitor heap) fuel (Some (root t)) ;;
   walk (Visitor heap) fuel (Some (root t))) w
  = (Ret tt, mkWorld (trace w ++ preorder t ++ preorder t) (user w)).
Proof.
  intros Hshape Hfuel. unfold bind.
  rewrite !(default_walk heap t Hshape fuel Hfuel). simpl.
  by rewrite <- app_assoc.
Qed.

Lemma successive_default_walks_agree_witness :
  (walk (Visitor Examples.heap_S5) 6 (Some 1%positive) ;;
   walk (Visitor Examples.heap_S5) 6 (Some 1%positive)) (mkWorld [] tt)
  = (Ret tt,
     mkWorld ([] ++ preorder Examples.tree_S5 ++ preorder Examples.tree_S5) tt).
Proof.
  apply (successive_default_walks_agree
           Examples.heap_S5 Examples.tree_S5 6 (mkWorld [] tt)).
  - vm_compute. reflexivity.
  - simpl. lia.
Defined.

Lemma for_each_not_starved {S A : Type} (xs : list A) (body : A -> M S unit) :
  (forall x, x ∈ xs -> forall w, fst (body x w) <> Starved) ->
  forall w, fst (for_each xs body w) <> Starved.
Proof.
  induction xs as [|x xs IH]; intros H w; simpl; [discriminate|].
  unfold bind. destruct (body x w) as [[[]| | |] w1] eqn:Hx; simpl;
    try discriminate.
  - apply IH. intros x' Hx' w'. apply H. by right.
  - specialize (H x (list_elem_of_here _ _) w). by rewrite Hx in H.
Qed.

(** On a ranked heap the default walk does not run out of fuel. *)
Lemma ranked_walk_not_starved
    {S : Type} (heap : gmap loc ASTNode) (rank : loc -> nat) (l : loc)
    (fuel : nat) (w : World S) :
  ranked heap rank ->
  2 * rank l + 3 <= fuel ->
  fst (walk (Visitor heap) fuel (Some l) w) <> Starved.
Proof.
  intros Hrank. remember (rank l) as n eqn:Hn.
  assert (Hle : rank l <= n) by lia. clear Hn.
  revert l fuel w Hle. induction n as [|n IH]; intros l fuel w Hle Hfuel.
  all: destruct fuel as [|[|[|fuel]]]; [lia..|].
  all: unfold walk; rewrite self_call_S; cbn [call Visitor].
  all: destruct (heap !! l) as [nd|] eqn:Hl;
    [|unfold Visitor_call, deref, load, bind; rewrite Hl; discriminate].
  all: destruct (nodeType nd) as [k|raw] eqn:Hk;
    [|unfold Visitor_call, deref, load, bind, ret; rewrite Hl; simpl;
      rewrite Hk; discriminate].
  all: rewrite (Visitor_call_known heap _ l nd k) by assumption.
  all: rewrite self_visit_S; unfold bind at 1, emit at 1; cbn [visit Visitor].
  all: unfold bind at 1.
  all: rewrite (Visitor_visit_children heap _ l nd k) by assumption.
  all: match goal with
       | |- context [for_each ?xs ?body ?w0] =>
           pose proof (for_each_not_starved xs body) as Hfe;
           destruct (for_each xs body w0) as [[[]| | |] w'] eqn:Hrun;
           simpl; try discriminate
       end.
  all: intros _; revert Hrun.
  all: assert (Hno : forall w0 : World S,
          fst (for_each (children nd)
                 (self_call (object (Visitor heap) (Datatypes.S fuel))) w0)
          <> Starved);
    [|intros Hrun; specialize (Hno (mkWorld (trace w ++ [Enter k l]) (user w)));
      by rewrite Hrun in Hno].
  all: apply Hfe; intros [c|] Hc w0; [|discriminate].
  - pose proof (Hrank l nd c Hl Hc). lia.
  - apply IH; [|lia]. pose proof (Hrank l nd c Hl Hc). lia.
Qed.

(** ** The default walk on an arbitrary heap

    The facts above are about heaps that hold a tree.  The ones below make
    no assumption on the heap: handles may be null, dangle, alias or form
    cycles, and tags may be outside the closed set. *)

Section AnyHeap.

Context {S : Type}.
Variable heap : gmap loc ASTNode.

Implicit Types (w : World S) (op : ptr) (l : loc).

Lemma walk_0 op w : walk (Visitor heap) 0 op w = (Starved, w).
Proof. reflexivity. Qed.

Lemma walk_null fuel w :
  walk (Visitor heap) (Datatypes.S fuel) None w = (Undef, w).
Proof. reflexivity. Qed.

Lemma walk_dangling fuel l w :
  heap !! l = None ->
  walk (Visitor heap) (Datatypes.S fuel) (Some l) w = (Undef, w).
Proof.
  intros Hl. unfold walk. rewrite self_call_S. cbn [call Visitor].
  unfold Visitor_call, deref, load, bind. by rewrite Hl.
Qed.

Lemma walk_foreign fuel l nd raw w :
  heap !! l = Some nd -> nodeType nd = Other raw ->
  walk (Visitor heap) (Datatypes.S fuel) (Some l) w = (Throw UnknownKind, w).
Proof.
  intros Hl Hk. unfold walk. rewrite self_call_S. cbn [call Visitor].
  unfold Visitor_call, deref, load, bind, ret. rewrite Hl. simpl. by rewrite Hk.
Qed.

Lemma walk_1 l nd k w :
  heap !! l = Some nd -> nodeType nd = Of k ->
  walk (Visitor heap) 1 (Some l) w = (Starved, w).
Proof.
  intros Hl Hk. unfold walk. rewrite self_call_S. cbn [call Visitor].
  by rewrite (Visitor_call_known heap _ l nd k).
Qed.

(** One level of the default walk at a node of the closed set. *)
Lemma walk_node fuel l nd k w :
  heap !! l = Some nd -> nodeType nd = Of k ->
  walk (Visitor heap) (Datatypes.S (Datatypes.S fuel)) (Some l) w
  = (emit (Enter k l) ;;
     for_each (children nd) (walk (Visitor heap) fuel) ;;
     emit (Leave k l)) w.
Proof.
  intros Hl Hk. unfold walk at 1. rewrite self_call_S. cbn [call Visitor].
  rewrite (Visitor_call_known heap _ l nd k) by assumption.
  rewrite self_visit_S. unfold bind at 1 3, emit at 1 3. cbn [visit Visitor].
  unfold bind at 1 2.
  by rewrite (Visitor_visit_children heap _ l nd k).
Qed.

(** A loop that does not return failed in one of its iterations, and ends
    as that iteration did. *)
Lemma for_each_fail_inv {A : Type} (xs : list A) (body : A -> M S unit)
    w (r : Res unit) w' :
  for_each xs body w = (r, w') -> r <> Ret tt ->
  exists x w1, x ∈ xs /\ body x w1 = (r, w').
Proof.
  revert w. induction xs as [|x xs IH]; intros w; simpl.
  - unfold ret. intros [= <- <-] Hr. by destruct Hr.
  - unfold bind. destruct (body x w) as [[[]|e| |] w1] eqn:Hx.
    + intros Hrun Hr. destruct (IH w1 Hrun Hr) as (x' & w2 & Hin & Hx').
      exists x', w2. split; [by right|done].
    + intros [= <- <-] _. exists x, w. split; [by left|done].
    + intros [= <- <-] _. exists x, w. split; [by left|done].
    + intros [= <- <-] _. exists x, w. split; [by left|done].
Qed.

Lemma height_Node_le k l kids n :
  Forall (fun c => 2 * height c <= n) kids ->
  2 * height (Node k l kids) <= Datatypes.S (Datatypes.S n).
Proof.
  intros H. simpl.
  assert (2 * foldr Nat.max 0 (map height kids) <= n); [|lia].
  induction H as [|c kids Hc _ IH]; simpl; lia.
Qed.

(** A loop over handles that returns has walked a tree behind each handle. *)
Lemma for_each_ret_kids fuel :
  (forall l w w',
      walk (Visitor heap) fuel (Some l) w = (Ret tt, w') ->
      exists t, shape heap t = true /\ root t = l /\ 2 * height t <= fuel
                /\ w' = mkWorld (trace w ++ preorder t) (user w)) ->
  forall hs w w',
    for_each hs (walk (Visitor heap) fuel) w = (Ret tt, w') ->
    exists kids,
      hs = map (fun c => Some (root c)) kids
      /\ Forall (fun c => shape heap c = true) kids
      /\ Forall (fun c => 2 * height c <= fuel) kids
      /\ w' = mkWorld (trace w ++ concat (map preorder kids)) (user w).
Proof.
  intros IHf. induction hs as [|h hs IH]; intros w w'; simpl.
  - unfold ret. intros [= <-]. exists []. repeat split; try constructor.
    destruct w. simpl. by rewrite app_nil_r.
  - unfold bind.
    destruct (walk (Visitor heap) fuel h w) as [[[]| | |] w1] eqn:Hh;
      try discriminate.
    intros Hrun. destruct h as [l|].
    2:{ destruct fuel; [rewrite walk_0 in Hh|rewrite walk_null in Hh];
        discriminate. }
    destruct (IHf l w w1 Hh) as (t & Hshape & Hroot & Hheight & ->).
    destruct (IH _ w' Hrun) as (kids & -> & Hshapes & Hheights & ->).
    exists (t :: kids). simpl. rewrite Hroot.
    repeat split; try (by constructor). by rewrite app_assoc.
Qed.

(** A default walk that returns has walked a tree. *)
Lemma walk_ret_tree fuel l w w' :
  walk (Visitor heap) fuel (Some l) w = (Ret tt, w') ->
  exists t, shape heap t = true /\ root t = l /\ 2 * height t <= fuel
            /\ w' = mkWorld (trace w ++ preorder t) (user w).
Proof.
  revert l w w'. induction fuel as [fuel IH] using lt_wf_ind. intros l w w'.
  destruct fuel as [|[|fuel]]; [by rewrite walk_0|..];
    (destruct (heap !! l) as [nd|] eqn:Hl;
       [|by rewrite walk_dangling]);
    (destruct (nodeType nd) as [k|raw] eqn:Hk;
       [|by rewrite (walk_foreign _ l nd raw)]).
  - by rewrite (walk_1 l nd k).
  - rewrite (walk_node fuel l nd k) by assumption.
    unfold bind at 1, emit at 1. unfold bind at 1.
    destruct (for_each _ _ _) as [[[]| | |] w1] eqn:Hrun; try discriminate.
    unfold emit. intros [= <-].
    destruct (for_each_ret_kids fuel (IH fuel ltac:(lia)) _ _ _ Hrun)
      as (kids & Hch & Hshapes & Hheights & ->).
    exists (Node k l kids). split; [|split; [done|split]].
    + apply shape_Node. by exists nd.
    + by apply height_Node_le.
    + simpl. f_equal. by rewrite <- !app_assoc.
Qed.

(** No tree lies behind a handle from which a cycle is reached. *)
Lemma no_tree_on_cycle (P : loc -> Prop) t :
  (forall l, P l ->
     exists nd c, heap !! l = Some nd /\ Some c ∈ children nd /\ P c) ->
  shape heap t = true -> P (root t) -> False.
Proof.
  intros Hcycle. induction t as [k l kids IH] using tree_induction.
  intros (nd & Hl & _ & Hch & Hkids)%shape_Node HP. simpl in HP.
  destruct (Hcycle l HP) as (nd' & c & Hl' & Hc & HPc).
  rewrite Hl in Hl'. injection Hl' as <-. rewrite Hch in Hc.
  apply list_elem_of_In, in_map_iff in Hc as (kid & [= <-] & Hkid).
  apply list_elem_of_In in Hkid. rewrite Forall_forall in IH, Hkids. eauto.
Qed.

(** An exception that leaves the default walk is the one of the switch, and
    a node with a tag outside the closed set is reached. *)
Lemma walk_throw_inv fuel l0 w e w' :
  walk (Visitor heap) fuel (Some l0) w = (Throw e, w') ->
  e = UnknownKind
  /\ exists l nd raw,
       reach heap l0 l /\ heap !! l = Some nd /\ nodeType nd = Other raw.
Proof.
  revert l0 w w'. induction fuel as [fuel IH] using lt_wf_ind. intros l0 w w'.
  destruct fuel as [|[|fuel]]; [by rewrite walk_0|..];
    (destruct (heap !! l0) as [nd|] eqn:Hl;
       [|by rewrite walk_dangling]);
    (destruct (nodeType nd) as [k|raw] eqn:Hk;
       [|rewrite (walk_foreign _ l0 nd raw) by assumption;
         intros [= <- <-]; split; [done|];
         exists l0, nd, raw; split; [constructor|done]]).
  - by rewrite (walk_1 l0 nd k).
  - rewrite (walk_node fuel l0 nd k) by assumption.
    unfold bind at 1, emit at 1. unfold bind at 1.
    destruct (for_each _ _ _) as [[[]|e1| |] w1] eqn:Hrun; try discriminate.
    intros [= <- <-].
    destruct (for_each_fail_inv _ _ _ _ _ Hrun ltac:(discriminate))
      as ([c|] & w2 & Hin & Hc).
    2:{ destruct fuel; [rewrite walk_0 in Hc|rewrite walk_null in Hc];
        discriminate. }
    destruct (IH fuel ltac:(lia) c w2 w1 Hc) as (-> & l & nd' & raw & Hr & H).
    split; [done|]. exists l, nd', raw. split; [|done].
    by apply reach_step with nd c.
Qed.

(** Undefined behaviour in the default walk comes from a handle that is
    null or dangles: the handle passed by the caller, or one stored in a
    node that is reached. *)
Lemma walk_undef_inv fuel l0 w w' :
  walk (Visitor heap) fuel (Some l0) w = (Undef, w') ->
  exists l,
    reach heap l0 l
    /\ (heap !! l = None
        \/ exists nd, heap !! l = Some nd /\ None ∈ children nd).
Proof.
  revert l0 w w'. induction fuel as [fuel IH] using lt_wf_ind. intros l0 w w'.
  destruct fuel as [|[|fuel]]; [by rewrite walk_0|..];
    (destruct (heap !! l0) as [nd|] eqn:Hl;
       [|intros _; exists l0; split; [constructor|by left]]);
    (destruct (nodeType nd) as [k|raw] eqn:Hk;
       [|by rewrite (walk_foreign _ l0 nd raw)]).
  - by rewrite (walk_1 l0 nd k).
  - rewrite (walk_node fuel l0 nd k) by assumption.
    unfold bind at 1, emit at 1. unfold bind at 1.
    destruct (for_each _ _ _) as [[[]|e1| |] w1] eqn:Hrun; try discriminate.
    intros [= <-].
    destruct (for_each_fail_inv _ _ _ _ _ Hrun ltac:(discriminate))
      as ([c|] & w2 & Hin & Hc).
    + destruct (IH fuel ltac:(lia) c w2 w1 Hc) as (l & Hr & H).
      exists l. split; [|done]. by apply reach_step with nd c.
    + exists l0. split; [constructor|]. right. by exists nd.
Qed.

Lemma for_each_mono {A : Type} (xs : list A) (body body' : A -> M S unit) :
  (forall x w (r : Res unit) w',
      body x w = (r, w') -> r <> Starved -> body' x w = (r, w')) ->
  forall w (r : Res unit) w',
    for_each xs body w = (r, w') -> r <> Starved ->
    for_each xs body' w = (r, w').
Proof.
  intros H. induction xs as [|x xs IH]; intros w r w'; simpl; [done|].
  unfold bind. destruct (body x w) as [[[]|e| |] w1] eqn:Hx; intros Hrun Hr.
  - rewrite (H x w _ w1 Hx) by discriminate. by apply IH.
  - rewrite (H x w _ w1 Hx) by discriminate. done.
  - rewrite (H x w _ w1 Hx) by discriminate. done.
  - injection Hrun as <- <-. by destruct Hr.
Qed.

(** More fuel does not change a walk that ended. *)
Lemma walk_mono n m op w (r : Res unit) w' :
  walk (Visitor heap) n op w = (r, w') -> r <> Starved -> n <= m ->
  walk (Visitor heap) m op w = (r, w').
Proof.
  revert m op w r w'. induction n as [n IH] using lt_wf_ind.
  intros m op w r w' Hrun Hr Hle.
  destruct n as [|n].
  { rewrite walk_0 in Hrun. injection Hrun as <- <-. by destruct Hr. }
  destruct m as [|m]; [lia|].
  destruct op as [l|].
  2:{ rewrite walk_null in Hrun. by rewrite walk_null. }
  destruct (heap !! l) as [nd|] eqn:Hl.
  2:{ rewrite walk_dangling in Hrun by assumption.
      by rewrite walk_dangling. }
  destruct (nodeType nd) as [k|raw] eqn:Hk.
  2:{ rewrite (walk_foreign _ l nd raw) in Hrun by assumption.
      by rewrite (walk_foreign _ l nd raw). }
  destruct n as [|n].
  { rewrite (walk_1 l nd k) in Hrun by assumption.
    injection Hrun as <- <-. by destruct Hr. }
  destruct m as [|m]; [lia|].
  rewrite (walk_node _ l nd k) in Hrun by assumption.
  rewrite (walk_node _ l nd k) by assumption.
  revert Hrun. unfold bind at 1 3, emit at 1 3. unfold bind at 1 2.
  destruct (for_each (children nd) (walk (Visitor heap) n) _)
    as [r1 w1] eqn:Hloop.
  assert (Hmono : r1 <> Starved ->
            for_each (children nd) (walk (Visitor heap) m)
              (mkWorld (trace w ++ [Enter k l]) (user w)) = (r1, w1)).
  { intros Hr1. eapply for_each_mono; [|exact Hloop|exact Hr1].
    intros x w0 r0 w0' Hx Hr0. apply (IH n ltac:(lia) m); [done|done|lia]. }
  destruct r1 as [[]|e| |].
  - by rewrite Hmono.
  - by rewrite Hmono.
  - by rewrite Hmono.
  - intros [= <- <-]. by destruct Hr.
Qed.

(** [uniform m]: the outcome of [m] and the events it records do not depend
    on the world it starts from, and it leaves the state of the pass
    alone. *)
Definition uniform (m : M S unit) : Prop :=
  exists (r : Res unit) tr,
    forall w, m w = (r, mkWorld (trace w ++ tr) (user w)).

Lemma uniform_ext (m m' : M S unit) :
  (forall w, m w = m' w) -> uniform m' -> uniform m.
Proof.
  intros Heq (r & tr & H). exists r, tr. intros w. by rewrite Heq.
Qed.

Lemma uniform_end (r : Res unit) : uniform (fun w => (r, w)).
Proof.
  exists r, []. intros [tr u]. simpl. by rewrite app_nil_r.
Qed.

Lemma uniform_emit e : uniform (emit e).
Proof. by exists (Ret tt), [e]. Qed.

Lemma uniform_seq (m k : M S unit) :
  uniform m -> uniform k -> uniform (m ;; k).
Proof.
  intros (r & tr & Hm) (r' & tr' & Hk).
  destruct r as [[]|e| |].
  - exists r', (tr ++ tr'). intros w. unfold bind. rewrite Hm, Hk. simpl.
    by rewrite app_assoc.
  - exists (Throw e), tr. intros w. unfold bind. by rewrite Hm.
  - exists Undef, tr. intros w. unfold bind. by rewrite Hm.
  - exists Starved, tr. intros w. unfold bind. by rewrite Hm.
Qed.

Lemma uniform_for_each {A : Type} (xs : list A) (body : A -> M S unit) :
  (forall x, uniform (body x)) -> uniform (for_each xs body).
Proof.
  intros H. induction xs as [|x xs IH]; simpl.
  - apply (uniform_end (Ret tt)).
  - by apply uniform_seq.
Qed.

Lemma walk_uniform fuel op : uniform (walk (Visitor heap) fuel op).
Proof.
  revert op. induction fuel as [fuel IH] using lt_wf_ind. intros op.
  destruct fuel as [|fuel]; [apply (uniform_end Starved)|].
  destruct op as [l|]; [|apply (uniform_end Undef)].
  destruct (heap !! l) as [nd|] eqn:Hl.
  2:{ eapply uniform_ext; [intros w; by apply walk_dangling|].
      apply uniform_end. }
  destruct (nodeType nd) as [k|raw] eqn:Hk.
  2:{ eapply uniform_ext; [intros w; by apply (walk_foreign _ l nd raw)|].
      apply uniform_end. }
  destruct fuel as [|fuel].
  { eapply uniform_ext; [intros w; by apply (walk_1 l nd k)|].
    apply uniform_end. }
  eapply uniform_ext; [intros w; by apply (walk_node _ l nd k)|].
  apply uniform_seq; [apply uniform_emit|].
  apply uniform_seq; [|apply uniform_emit].
  apply uniform_for_each. intros x. apply IH. lia.
Qed.

End AnyHeap.

(** A default walk returns exactly on trees.  If it returns, it has read
    only tags of the closed set and found every required child: behind the
    handle there is a tree in the heap (the reached nodes unfolded along the
    handles, a shared node once per handle), at most half as high as the
    fuel, and the events recorded are the pre-order events of that tree.
    Conversely it returns, with those events, on every such tree. *)
Theorem default_walk_returns_only_on_trees
    {S : Type} (heap : gmap loc ASTNode) (fuel : nat) (l : loc)
    (w w' : World S) :
  walk (Visitor heap) fuel (Some l) w = (Ret tt, w')
  <-> exists t,
        shape heap t = true /\ root t = l /\ 2 * height t <= fuel
        /\ w' = mkWorld (trace w ++ preorder t) (user w).
Proof.
  split.
  - apply walk_ret_tree.
  - intros (t & Hshape & <- & Hfuel & ->).
    by apply default_walk.
Qed.

Lemma default_walk_returns_only_on_trees_witness :
  exists t,
    shape Examples.heap_shared t = true /\ root t = 1%positive
    /\ 2 * height t <= 4
    /\ mkWorld [Enter Add 1; Enter Var 2; Leave Var 2;
                Enter Var 2; Leave Var 2; Leave Add 1] tt
       = mkWorld ([] ++ preorder t) tt.
Proof.
  apply (proj1 (default_walk_returns_only_on_trees
                  Examples.heap_shared 4 1%positive (mkWorld [] tt) _)).
  vm_compute. reflexivity.
Defined.

(** The only exception that leaves a default walk is the [runtime_error] of
    the switch, and when it does a node whose tag is outside the closed set
    is reached from the handle the caller passed.  Nothing is rolled back
    and nothing else is touched: the events recorded before the exception
    stay, and the state of the pass is as it was. *)
Theorem default_walk_throws_only_unknown_kind
    {S : Type} (heap : gmap loc ASTNode) (fuel : nat) (l0 : loc)
    (w w' : World S) (e : exn) :
  walk (Visitor heap) fuel (Some l0) w = (Throw e, w') ->
  e = UnknownKind
  /\ (exists l nd raw,
        reach heap l0 l /\ heap !! l = Some nd /\ nodeType nd = Other raw)
  /\ (exists tr, w' = mkWorld (trace w ++ tr) (user w)).
Proof.
  intros Hrun.
  destruct (walk_throw_inv heap fuel l0 w e w' Hrun) as [He Hreach].
  split; [done|]. split; [done|].
  destruct (@walk_uniform S heap fuel (Some l0)) as (r & tr & Huni).
  rewrite Huni in Hrun. injection Hrun as _ <-. by exists tr.
Qed.

Lemma default_walk_throws_only_unknown_kind_witness :
  UnknownKind = UnknownKind
  /\ (exists l nd raw,
        reach Examples.heap_foreign_inside 1%positive l
        /\ Examples.heap_foreign_inside !! l = Some nd
        /\ nodeType nd = Other raw)
  /\ (exists tr,
        mkWorld [Enter StmtSeq 1; Enter Invoke 2; Enter Call 5;
                 Leave Call 5; Leave Invoke 2] tt
        = mkWorld ([] ++ tr) tt).
Proof.
  apply (default_walk_throws_only_unknown_kind
           Examples.heap_foreign_inside 6 1%positive (mkWorld [] tt)
           (mkWorld [Enter StmtSeq 1; Enter Invoke 2; Enter Call 5;
                     Leave Call 5; Leave Invoke 2] tt)).
  vm_compute. reflexivity.
Defined.

(** Undefined behaviour in a default walk has one cause: a handle that is
    null or dangles, either the one the caller passed or one stored as a
    required child in a node that is reached.  The walk itself never casts
    to a wrong class. *)
Theorem default_walk_undefined_only_on_bad_handle
    {S : Type} (heap : gmap loc ASTNode) (fuel : nat) (l0 : loc)
    (w w' : World S) :
  walk (Visitor heap) fuel (Some l0) w = (Undef, w') ->
  (exists l,
      reach heap l0 l
      /\ (heap !! l = None
          \/ exists nd, heap !! l = Some nd /\ None ∈ children nd))
  /\ (exists tr, w' = mkWorld (trace w ++ tr) (user w)).
Proof.
  intros Hrun. split; [by eapply walk_undef_inv|].
  destruct (@walk_uniform S heap fuel (Some l0)) as (r & tr & Huni).
  rewrite Huni in Hrun. injection Hrun as _ <-. by exists tr.
Qed.

Lemma default_walk_undefined_only_on_bad_handle_witness :
  (exists l,
      reach Examples.heap_no_expr 1%positive l
      /\ (Examples.heap_no_expr !! l = None
          \/ exists nd, Examples.heap_no_expr !! l = Some nd
                        /\ None ∈ children nd))
  /\ (exists tr,
        mkWorld [Enter Assign 1; Enter Var 2; Leave Var 2] tt
        = mkWorld ([] ++ tr) tt).
Proof.
  apply (default_walk_undefined_only_on_bad_handle
           Examples.heap_no_expr 5 1%positive (mkWorld [] tt)
           (mkWorld [Enter Assign 1; Enter Var 2; Leave Var 2] tt)).
  vm_compute. reflexivity.
Defined.



(** The base class keeps no state of its own and touches none of the pass:
    on every heap, the outcome of a default walk and the events it records
    are the same from every world, the events are appended to those already
    recorded, and the state of the pass is returned as it was, also when the
    walk fails. *)
Theorem default_walk_is_independent_of_the_state
    {S : Type} (heap : gmap loc ASTNode) (fuel : nat) (op : ptr) :
  exists (r : Res unit) tr,
    (forall w : World S,
        walk (Visitor heap) fuel op w = (r, mkWorld (trace w ++ tr) (user w)))
    /\ (forall w1 w2 : World S,
          fst (walk (Visitor heap) fuel op w1)
          = fst (walk (Visitor heap) fuel op w2)
          /\ user (snd (walk (Visitor heap) fuel op w1)) = user w1).
Proof.
  destruct (@walk_uniform S heap fuel op) as (r & tr & Huni).
  exists r, tr. split; [exact Huni|].
  intros w1 w2. by rewrite (Huni w1), (Huni w2).
Qed.

(** From a node that lies on a cycle of handles, or from which such a cycle
    is reached, the default walk never returns, whatever the fuel. *)
Theorem default_walk_never_returns_on_a_cycle
    {S : Type} (heap : gmap loc ASTNode) (P : loc -> Prop) (l : loc)
    (fuel : nat) (w : World S) :
  (forall l', P l' ->
     exists nd c, heap !! l' = Some nd /\ Some c ∈ children nd /\ P c) ->
  P l ->
  fst (walk (Visitor heap) fuel (Some l) w) <> Ret tt.
Proof.
  intros Hcycle HP Hret.
  destruct (walk (Visitor heap) fuel (Some l) w) as [r w'] eqn:Hrun.
  simpl in Hret. subst r.
  destruct (walk_ret_tree heap fuel l w w' Hrun) as (t & Hshape & <- & _).
  by apply (no_tree_on_cycle heap P t).
Qed.

Lemma default_walk_never_returns_on_a_cycle_witness :
  fst (walk (Visitor Examples.heap_cycle) 9 (Some 1%positive) (mkWorld [] tt))
  <> Ret tt.
Proof.
  apply (default_walk_never_returns_on_a_cycle
           Examples.heap_cycle (fun l => l = 1%positive) 1%positive 9
           (mkWorld [] tt)).
  - intros l' ->. exists (FunctionNode (Some 1%positive)), 1%positive.
    split; [vm_compute; reflexivity|]. split; [simpl; by left|reflexivity].
  - reflexivity.
Defined.

(** A failure below a node is the failure of the node: when the walk of a
    child does not return, the handler of the parent does not return either,
    the later children are not walked, and the walk of the parent ends as
    the walk of the child did, with the events recorded so far. *)
Theorem child_failure_aborts_parent
    {S : Type} (heap : gmap loc ASTNode) (l : loc) (nd : ASTNode) (k : kind)
    (kids : list tree) (c : ptr) (rest : list ptr) (fuel : nat)
    (w w' : World S) (r : Res unit) :
  heap !! l = Some nd ->
  nodeType nd = Of k ->
  children nd = map (fun t => Some (root t)) kids ++ c :: rest ->
  Forall (fun t => shape heap t = true /\ 2 * height t <= fuel) kids ->
  walk (Visitor heap) fuel c
       (mkWorld (trace w ++ Enter k l :: concat (map preorder kids)) (user w))
  = (r, w') ->
  r <> Ret tt ->
  walk (Visitor heap) (Datatypes.S (Datatypes.S fuel)) (Some l) w = (r, w').
Proof.
  intros Hl Hk Hch Hkids Hc Hr.
  rewrite (walk_node heap fuel l nd k) by assumption.
  unfold bind at 1, emit at 1. unfold bind at 1.
  rewrite Hch, for_each_app. unfold bind at 1.
  change (@walk S (Visitor heap) fuel)
    with (@self_call S (object (Visitor heap) fuel)).
  rewrite (for_each_kids_default heap fuel kids _ Hkids).
  cbn [for_each trace user]. unfold bind at 1.
  change (@self_call S (object (Visitor heap) fuel) c)
    with (@walk S (Visitor heap) fuel c).
  rewrite <- app_assoc. simpl. rewrite Hc.
  destruct r as [[]|e| |]; [by destruct Hr|done..].
Qed.

Lemma child_failure_aborts_parent_witness :
  walk (Visitor Examples.heap_foreign_inside) 6 (Some 1%positive)
       (mkWorld [] tt)
  = (Throw UnknownKind,
     mkWorld [Enter StmtSeq 1; Enter Invoke 2; Enter Call 5;
              Leave Call 5; Leave Invoke 2] tt).
Proof.
  apply (child_failure_aborts_parent
           Examples.heap_foreign_inside 1%positive
           (StmtSeqNode [Some 2%positive; Some 3%positive; Some 4%positive])
           StmtSeq [Node Invoke 2 [Node Call 5 []]]
           (Some 3%positive) [Some 4%positive] 4 (mkWorld [] tt)).
  - vm_compute. reflexivity.
  - reflexivity.
  - reflexivity.
  - constructor; [split; [reflexivity|simpl; lia]|constructor].
  - vm_compute. reflexivity.
  - discriminate.
Defined.

(** The default walk enters a node once for every handle path that leads to
    it: on a heap that holds [t], where an address may occur at several
    places of [t] when handles alias, each address is entered as many times
    as it occurs in [t]. *)
Theorem default_walk_enters_once_per_occurrence
    {S : Type} (heap : gmap loc ASTNode) (t : tree) (s : S) (fuel : nat) :
  shape heap t = true ->
  2 * height t <= fuel ->
  exists tr,
    walk (Visitor heap) fuel (Some (root t)) (mkWorld [] s)
    = (Ret tt, mkWorld tr s)
    /\ forall N, occurrences N (entered tr) = occurrences N (nodes t).
Proof.
  intros Hshape Hfuel. exists (preorder t). split.
  - by rewrite (default_walk heap t Hshape fuel Hfuel).
  - intros N. by rewrite entered_preorder.
Qed.

Lemma default_walk_enters_once_per_occurrence_witness :
  exists tr,
    walk (Visitor Examples.heap_shared) 4 (Some 1%positive) (mkWorld [] tt)
    = (Ret tt, mkWorld tr tt)
    /\ forall N, occurrences N (entered tr)
                 = occurrences N (nodes Examples.dag_shared).
Proof.
  apply (default_walk_enters_once_per_occurrence
           Examples.heap_shared Examples.dag_shared tt 4).
  - vm_compute. reflexivity.
  - simpl. lia.
Defined.

(** The walk of a list of children by an object of any class, when the walk
    of each child is known to be the default one. *)
Lemma for_each_kids_ret {S : Type} (C : @Class S) fuel kids :
  Forall (fun c => forall w,
            walk C fuel (Some (root c)) w
            = (Ret tt, mkWorld (trace w ++ preorder c) (user w))) kids ->
  forall w,
    for_each (map (fun c => Some (root c)) kids) (self_call (object C fuel)) w
    = (Ret tt, mkWorld (trace w ++ concat (map preorder kids)) (user w)).
Proof.
  induction 1 as [|c kids Hc _ IH]; intros w; simpl.
  - unfold ret. destruct w. simpl. by rewrite app_nil_r.
  - unfold bind. fold (walk C fuel (Some (root c))). rewrite Hc, IH. simpl.
    by rewrite app_assoc.
Qed.

(** An override is only seen at nodes of its kind: whatever the body that
    overrides the handler of kind [K], on a tree without a node of kind [K]
    the walk of the subclass is the default walk, events and state. *)
Theorem override_is_inert_without_its_kind
    {S : Type} (heap : gmap loc ASTNode) (K : kind)
    (body : Self -> loc -> M S unit) (t : tree) (fuel : nat) (w : World S) :
  shape heap t = true ->
  K ∉ kinds t ->
  2 * height t <= fuel ->
  walk (override_visit (Visitor heap) K body) fuel (Some (root t)) w
  = walk (Visitor heap) fuel (Some (root t)) w.
Proof.
  intros Hshape HK Hfuel.
  rewrite (default_walk heap t Hshape fuel Hfuel).
  revert Hshape HK fuel Hfuel w.
  induction t as [k l kids IH] using tree_induction.
  intros (nd & Hl & Hk & Hch & Hkids)%shape_Node HK fuel Hfuel w.
  simpl in HK. apply not_elem_of_cons in HK as [Hne HK].
  destruct fuel as [|[|fuel]]; [simpl in Hfuel; lia..|].
  assert (Hrec : Forall (fun c => forall w',
            walk (override_visit (Visitor heap) K body) fuel (Some (root c)) w'
            = (Ret tt, mkWorld (trace w' ++ preorder c) (user w'))) kids).
  { apply Forall_forall. intros c Hc w'.
    rewrite Forall_forall in IH, Hkids. apply IH; auto.
    - intros Hin. apply HK. apply elem_of_concat_map. eauto.
    - pose proof (height_kid k l kids c Hc). lia. }
  change (root (Node k l kids)) with l.
  unfold walk. rewrite self_call_S. cbn [call override_visit Visitor].
  rewrite (Visitor_call_known heap _ l nd k) by assumption.
  rewrite self_visit_S. unfold bind at 1, emit at 1.
  cbn [visit override_visit]. rewrite decide_False by congruence.
  cbn [visit Visitor]. unfold bind at 1.
  rewrite (Visitor_visit_children heap _ l nd k) by assumption.
  rewrite Hch, (for_each_kids_ret _ fuel kids Hrec).
  unfold emit. simpl. f_equal. f_equal. by rewrite <- !app_assoc.
Qed.

Lemma override_is_inert_without_its_kind_witness :
  walk (override_visit (Visitor Examples.heap_S5) While (fun _ _ => undef))
       6 (Some 1%positive) (mkWorld [] tt)
  = walk (Visitor Examples.heap_S5) 6 (Some 1%positive) (mkWorld [] tt).
Proof.
  apply (override_is_inert_without_its_kind
           Examples.heap_S5 While (fun _ _ => undef) Examples.tree_S5 6
           (mkWorld [] tt)).
  - vm_compute. reflexivity.
  - apply (bool_decide_unpack _). vm_compute. exact I.
  - simpl. lia.
Defined.

(** A default walk records nothing but the [Enter] and the [Leave] of the
    node it starts from exactly when that node has no child to walk: a
    [Call], an [Integer], a [Var], a [Program] without functions or a block
    without statements. *)
Theorem default_walk_is_a_leaf_walk_iff_no_children
    {S : Type} (heap : gmap loc ASTNode) (l : loc) (nd : ASTNode) (k : kind)
    (fuel : nat) (w : World S) :
  heap !! l = Some nd ->
  nodeType nd = Of k ->
  walk (Visitor heap) (Datatypes.S (Datatypes.S fuel)) (Some l) w
  = (Ret tt, mkWorld (trace w ++ [Enter k l; Leave k l]) (user w))
  <-> children nd = [].
Proof.
  intros Hl Hk. split.
  - intros Hrun.
    destruct (walk_ret_tree heap _ l w _ Hrun)
      as ([k' l' kids] & Hshape & Hroot & _ & Heq).
    apply shape_Node in Hshape as (nd' & Hl' & _ & Hch & _).
    simpl in Hroot. subst l'. rewrite Hl in Hl'. injection Hl' as <-.
    injection Heq as Heq. apply app_inv_head in Heq.
    destruct kids as [|[kc lc kidsc] kids]; [done|].
    simpl in Heq. discriminate Heq.
  - intros Hch. rewrite (walk_node heap fuel l nd k) by assumption.
    rewrite Hch. simpl. unfold bind, emit, ret. simpl.
    by rewrite <- app_assoc.
Qed.

Lemma default_walk_is_a_leaf_walk_iff_no_children_witness :
  walk (Visitor Examples.heap_loops) 2 (Some 4%positive) (mkWorld [] tt)
  = (Ret tt, mkWorld ([] ++ [Enter StmtSeq 4; Leave StmtSeq 4]) tt)
  <-> children (StmtSeqNode []) = [].
Proof.
  apply (default_walk_is_a_leaf_walk_iff_no_children
           Examples.heap_loops 4%positive (StmtSeqNode []) StmtSeq 0
           (mkWorld [] tt)).
  - vm_compute. reflexivity.
  - reflexivity.
Defined.

Lemma effect_descending {S : Type} (K : kind) (pre post : loc -> S -> S) t s :
  effect (cutting K pre (fun _ => true) post) t s
  = foldl (work_along K pre post) s (preorder t).
Proof.
  revert s. induction t as [k l kids IH] using tree_induction. intros s.
  simpl. rewrite foldl_app. simpl.
  destruct (decide (k = K)) as [->|Hne]; simpl.
  - f_equal. generalize (pre l s). clear s.
    induction IH as [|c kids Hc _ IHkids]; intros s; simpl; [reflexivity|].
    by rewrite foldl_app, Hc, IHkids.
  - generalize s. clear s.
    induction IH as [|c kids Hc _ IHkids]; intros s; simpl; [reflexivity|].
    by rewrite foldl_app, Hc, IHkids.
Qed.

(** A pass that overrides the handler of one kind and invokes the default
    from it, between work of its own, reaches every node of the tree: the
    handler invocations are those of the default walk, and the work of the
    pass is done at every node of the kind it overrides and at no other, in
    the order of the trace: [pre] when the node is entered, before its
    children are walked, [post] when it is left, after they were. *)
Theorem override_that_descends_works_at_each_node_of_its_kind
    {S : Type} (heap : gmap loc ASTNode) (t : tree) (K : kind)
    (pre post : loc -> S -> S) (s : S) (fuel : nat) :
  shape heap t = true ->
  2 * height t <= fuel ->
  walk (override_visit (Visitor heap) K
          (visit_body heap pre (fun _ => true) post K))
       fuel (Some (root t)) (mkWorld [] s)
  = (Ret tt,
     mkWorld (preorder t) (foldl (work_along K pre post) s (preorder t))).
Proof.
  intros Hshape Hfuel.
  rewrite (walk_follows heap _ _
             (follows_override_visit heap K pre (fun _ => true) post)
             t Hshape fuel Hfuel).
  simpl. rewrite effect_descending, events_descend; [reflexivity|].
  intros k l. simpl. by destruct (decide (k = K)).
Qed.

Lemma override_that_descends_works_at_each_node_of_its_kind_witness :
  walk (override_visit (Visitor Examples.heap_S1) Var
          (visit_body Examples.heap_S1 (fun l s => s ++ [l])
             (fun _ => true) (fun _ s => s) Var))
       12 (Some 1%positive) (mkWorld [] [])
  = (Ret tt,
     mkWorld (preorder Examples.tree_S1)
             (foldl (work_along Var (fun l s => s ++ [l]) (fun _ s => s)) []
                    (preorder Examples.tree_S1))).
Proof.
  apply (override_that_descends_works_at_each_node_of_its_kind
           Examples.heap_S1 Examples.tree_S1 Var
           (fun l s => s ++ [l]) (fun _ s => s) [] 12).
  - vm_compute. reflexivity.
  - simpl. lia.
Defined.

(** On a heap without cycles the default walk always ends: within a
    recursion depth given by the rank of the node it starts from, it
    returns, throws, or runs into undefined behaviour, and a deeper budget
    gives the same outcome and events. *)
Theorem acyclic_heap_walk_ends
    {S : Type} (heap : gmap loc ASTNode) (rank : loc -> nat) (l : loc)
    (fuel : nat) (w : World S) :
  ranked heap rank ->
  2 * rank l + 3 <= fuel ->
  fst (walk (Visitor heap) fuel (Some l) w) <> Starved
  /\ (forall fuel', fuel <= fuel' ->
         walk (Visitor heap) fuel' (Some l) w
         = walk (Visitor heap) fuel (Some l) w).
Proof.
  intros Hrank Hfuel.
  pose proof (ranked_walk_not_starved heap rank l fuel w Hrank Hfuel) as Hns.
  split; [exact Hns|].
  intros fuel' Hle.
  destruct (walk (Visitor heap) fuel (Some l) w) as [r w'] eqn:Hrun.
  by apply (walk_mono heap fuel fuel').
Qed.

Lemma acyclic_heap_walk_ends_witness :
  fst (walk (Visitor Examples.heap_shared) 5 (Some 1%positive) (mkWorld [] tt))
  <> Starved
  /\ (forall fuel', 5 <= fuel' ->
         walk (Visitor Examples.heap_shared) fuel' (Some 1%positive)
              (mkWorld [] tt)
         = walk (Visitor Examples.heap_shared) 5 (Some 1%positive)
                (mkWorld [] tt)).
Proof.
  apply (acyclic_heap_walk_ends Examples.heap_shared
           (fun l => if Pos.eqb l 1 then 1 else 0) 1%positive 5 (mkWorld [] tt)).
  - intros l nd c Hl Hc.
    destruct (decide (l = 1%positive)) as [->|Hne1].
    + vm_compute in Hl. injection Hl as <-. simpl in Hc.
      apply elem_of_cons in Hc as [[= ->]|Hc]; [simpl; lia|].
      apply elem_of_cons in Hc as [[= ->]|Hc]; [simpl; lia|].
      by apply elem_of_nil in Hc.
    + destruct (decide (l = 2%positive)) as [->|Hne2].
      * vm_compute in Hl. injection Hl as <-. by apply elem_of_nil in Hc.
      * unfold Examples.heap_shared in Hl. simpl in Hl.
        rewrite !lookup_insert_ne in Hl by done. by rewrite lookup_empty in Hl.
  - simpl. lia.
Defined.

(** The invariants of the data model, checked node by node, are enough for
    the default walk to return: on a heap without cycles, if every node
    reached from the handle carries a tag of the closed set and stores no
    null handle among the children its handler walks, the walk returns. *)
Theorem default_walk_returns_on_well_formed_acyclic_heap
    {S : Type} (heap : gmap loc ASTNode) (rank : loc -> nat) (l0 : loc)
    (fuel : nat) (w : World S) :
  ranked heap rank ->
  (forall l, reach heap l0 l ->
     exists nd k, heap !! l = Some nd /\ nodeType nd = Of k
                  /\ None ∉ children nd) ->
  2 * rank l0 + 3 <= fuel ->
  fst (walk (Visitor heap) fuel (Some l0) w) = Ret tt.
Proof.
  intros Hrank Hwf Hfuel.
  pose proof (ranked_walk_not_starved heap rank l0 fuel w Hrank Hfuel) as Hns.
  destruct (walk (Visitor heap) fuel (Some l0) w) as [[[]|e| |] w'] eqn:Hrun;
    simpl in *.
  - reflexivity.
  - destruct (walk_throw_inv heap _ _ _ _ _ Hrun)
      as (_ & l & nd & raw & Hreach & Hl & Hraw).
    destruct (Hwf l Hreach) as (nd' & k & Hl' & Hk & _). congruence.
  - destruct (walk_undef_inv heap _ _ _ _ Hrun) as (l & Hreach & Hbad).
    destruct (Hwf l Hreach) as (nd' & k & Hl' & _ & Hnull).
    destruct Hbad as [Hl|(nd & Hl & Hin)]; [congruence|].
    rewrite Hl in Hl'. injection Hl' as <-. done.
  - done.
Qed.

Lemma default_walk_returns_on_well_formed_acyclic_heap_witness :
  fst (walk (Visitor Examples.heap_shared) 5 (Some 1%positive) (mkWorld [] tt))
  = Ret tt.
Proof.
  assert (Hlookup : forall l nd,
            Examples.heap_shared !! l = Some nd ->
            (l = 1%positive
             /\ nd = AddNode (Some 2%positive) (Some 2%positive))
            \/ (l = 2%positive /\ nd = VarNode)).
  { intros l nd Hl.
    destruct (decide (l = 1%positive)) as [->|Hne1];
      [vm_compute in Hl; injection Hl as <-; by left|].
    destruct (decide (l = 2%positive)) as [->|Hne2];
      [vm_compute in Hl; injection Hl as <-; by right|].
    unfold Examples.heap_shared in Hl. simpl in Hl.
    rewrite !lookup_insert_ne in Hl by done. by rewrite lookup_empty in Hl. }
  apply (default_walk_returns_on_well_formed_acyclic_heap
           Examples.heap_shared (fun l => if Pos.eqb l 1 then 1 else 0)
           1%positive 5 (mkWorld [] tt)).
  - intros l nd c Hl Hc.
    destruct (Hlookup l nd Hl) as [[-> ->]|[-> ->]]; simpl in Hc.
    + apply elem_of_cons in Hc as [[= ->]|Hc]; [simpl; lia|].
      apply elem_of_cons in Hc as [[= ->]|Hc]; [simpl; lia|].
      by apply elem_of_nil in Hc.
    + by apply elem_of_nil in Hc.
  - assert (Hwf : forall l nd, Examples.heap_shared !! l = Some nd ->
              exists nd' k, Examples.heap_shared !! l = Some nd'
                            /\ nodeType nd' = Of k /\ None ∉ children nd').
    { intros l nd Hl. destruct (Hlookup l nd Hl) as [[-> ->]|[-> ->]].
      - exists (AddNode (Some 2%positive) (Some 2%positive)), Add.
        split; [done|]. split; [done|]. simpl. intros Hin.
        apply elem_of_cons in Hin as [[=]|Hin].
        apply elem_of_cons in Hin as [[=]|Hin]. by apply elem_of_nil in Hin.
      - exists VarNode, Var. split; [done|]. split; [done|].
        apply not_elem_of_nil. }
    intros l Hreach.
    inversion Hreach as [|l1 nd c l2 Hl Hc Hreach']; subst.
    { by apply (Hwf _ (AddNode (Some 2%positive) (Some 2%positive))). }
    destruct (Hlookup _ _ Hl) as [[_ ->]|[[=] _]]. simpl in Hc.
    assert (c = 2%positive) as ->.
    { apply elem_of_cons in Hc as [[= ->]|Hc]; [done|].
      apply elem_of_cons in Hc as [[= ->]|Hc]; [done|].
      by apply elem_of_nil in Hc. }
    inversion Hreach' as [|l1 nd' c' l2 Hl' Hc' _]; subst.
    { by apply (Hwf _ VarNode). }
    destruct (Hlookup _ _ Hl') as [[[=] _]|[_ ->]]. simpl in Hc'.
    by apply elem_of_nil in Hc'.
  - simpl. lia.
Defined.
